(** * lib/datasource.js: the DataSource runtime

    A shallow embedding of [DataSource] (adapter loading, connection
    lifecycle, model registry, discovery delegate, transaction sandbox).

    JavaScript objects live in a heap of property lists, so that two
    references to one object (a [settings] bag reached from the parent
    registry and from a transaction registry) are the same location.
    Properties carry their attributes (writable, enumerable, configurable)
    and objects their [__proto__]; a plain object is taken without the
    members it would inherit from [Object.prototype], and the prototype
    objects of instances are left out.  DataSource objects and transaction
    contexts have a fixed set of fields and are kept in a store of records.

    Computations thread the world (heap, DataSource records, the queue of
    completions for later ticks, a trace of what was called) and may
    throw.  The code of an adapter is not part of this file: an adapter is
    given by the operations it has and by how each one answers its
    completion (before it returns, on a later tick, or never).  What
    lib/adl.js, lib/dao.js and lib/model.js contribute is not among the
    sources either; it is modelled from the specification where it is
    needed, and marked as such. *)

From Stdlib Require Import ZArith Lia.
From stdpp Require Import base option list strings pretty.

Local Open Scope string_scope.
Local Open Scope list_scope.
Local Open Scope nat_scope.
Set Warnings "-register-all".

(** ** Values *)

Abbreviation loc := nat.

(** Completions.  [UserCb] is a function supplied by the caller, known by
    an identifier; the others are the closures that the source creates: in
    [setup] for the adapter's [initialize], in [schema.connect] (around the
    caller's completion, when there is one) and in [defineForeignKey]. *)
Inductive callback : Type :=
| UserCb (id : nat)
| InitDone (schema : nat)
| ConnectDone (schema : nat) (cb : option nat)
| ForeignKeyDone (this : nat) (className key : string).

Inductive value : Type :=
| VUndef
| VNull
| VBool (b : bool)
| VNum (z : Z)
| VStr (s : string)
| VObj (l : loc)       (* a heap object: plain object or constructor *)
| VSource (d : nat)    (* a DataSource or a transaction context *)
| VFun (f : string).   (* a function defined outside this file, by name *)

Global Instance value_eq_dec : EqDecision value.
Proof. solve_decision. Defined.

(** ToBoolean *)
Definition truthy (v : value) : bool :=
  match v with
  | VUndef | VNull => false
  | VBool b => b
  | VNum z => negb (z =? 0)%Z
  | VStr s => negb (String.eqb s "")
  | VObj _ | VSource _ | VFun _ => true
  end.

(** [a || b] *)
Definition js_or (a b : value) : value := if truthy a then a else b.

(** The builtin constructor [Number]. *)
Definition Number : value := VFun "Number".

(** ToPropertyKey, for a value used between brackets. *)
Definition to_key (v : value) : string :=
  match v with
  | VStr s => s
  | VUndef => "undefined"
  | VNull => "null"
  | VBool true => "true"
  | VBool false => "false"
  | VNum z => pretty z
  | VObj _ | VSource _ => "[object Object]"
  | VFun f => String.append "function " f
  end.

(** ** Objects and the heap *)

Record prop : Type := Prop_ {
  p_value : value;
  p_writable : bool;
  p_enumerable : bool;
  p_configurable : bool
}.

(** A property created by plain assignment or by an object literal. *)
Definition data (v : value) : prop := Prop_ v true true true.

Abbreviation props := (list (string * prop)).

Record obj : Type := Obj {
  o_proto : option loc;
  o_props : props          (* own properties, in insertion order *)
}.

Fixpoint own (k : string) (ps : props) : option prop :=
  match ps with
  | [] => None
  | (k', p) :: ps' => if String.eqb k k' then Some p else own k ps'
  end.

(** Store [p] under [k]: an existing key keeps its position, a new key goes
    to the end. *)
Fixpoint store (k : string) (p : prop) (ps : props) : props :=
  match ps with
  | [] => [(k, p)]
  | (k', p') :: ps' =>
      if String.eqb k k' then (k, p) :: ps' else (k', p') :: store k p ps'
  end.

Definition keys (ps : props) : list string := map fst ps.

Definition mem (k : string) (ks : list string) : bool :=
  existsb (String.eqb k) ks.

Abbreviation heap := (list obj).

(** Property lookup along the prototype chain (own property first). *)
Fixpoint find (fuel : nat) (h : heap) (l : loc) (k : string) : option prop :=
  match fuel with
  | O => None
  | S fuel' =>
      match h !! l with
      | None => None
      | Some o =>
          match own k (o_props o) with
          | Some p => Some p
          | None =>
              match o_proto o with
              | Some l' => find fuel' h l' k
              | None => None
              end
          end
      end
  end.

Definition lookup_chain (h : heap) (l : loc) (k : string) : option prop :=
  find (S (length h)) h l k.

(** [o[k]] on a heap object *)
Definition read (h : heap) (l : loc) (k : string) : value :=
  match lookup_chain h l k with
  | Some p => p_value p
  | None => VUndef
  end.

(** [k in o] *)
Definition has (h : heap) (l : loc) (k : string) : bool :=
  match lookup_chain h l k with Some _ => true | None => false end.

(** [o[k] = v] outside strict mode: a read-only property (own or inherited)
    makes the assignment a silent no-op; otherwise the own property is
    updated or created. *)
Definition assign (h : heap) (l : loc) (k : string) (v : value) : heap :=
  match h !! l with
  | None => h
  | Some o =>
      match lookup_chain h l k with
      | Some p =>
          if p_writable p then
            match own k (o_props o) with
            | Some q =>
                <[l := Obj (o_proto o)
                         (store k (Prop_ v true (p_enumerable q) (p_configurable q))
                                (o_props o))]> h
            | None => <[l := Obj (o_proto o) (store k (data v) (o_props o))]> h
            end
          else h
      | None => <[l := Obj (o_proto o) (store k (data v) (o_props o))]> h
      end
  end.

(** [for (var k in o)]: own enumerable keys, then those of the prototype
    chain; a key already seen on the way (enumerable or not) hides an
    inherited one. *)
Fixpoint for_in_from (fuel : nat) (h : heap) (l : loc) (seen : list string)
  : list string :=
  match fuel with
  | O => []
  | S fuel' =>
      match h !! l with
      | None => []
      | Some o =>
          keys (filter (λ kp, p_enumerable kp.2 && negb (mem kp.1 seen)) (o_props o))
          ++ match o_proto o with
             | Some l' => for_in_from fuel' h l' (seen ++ keys (o_props o))
             | None => []
             end
      end
  end.

Definition for_in (h : heap) (l : loc) : list string :=
  for_in_from (S (length h)) h l [].

(** [Object.keys(o)] *)
Definition object_keys (h : heap) (l : loc) : list string :=
  match h !! l with
  | None => []
  | Some o => keys (filter (λ kp, p_enumerable kp.2) (o_props o))
  end.

(** ** Adapters *)

(** The operations of the capability contract that take no part in the
    result of [transaction()], which is kept apart. *)
Inductive op : Type :=
| Define | DefineProperty | Connect | Disconnect
| Automigrate | Autoupdate | IsActual
| DiscoverModels | DiscoverModelProperties
| DiscoverPrimaryKeys | DiscoverForeignKeys
| FreezeSchema | DefineForeignKey | Exec.

(** How an adapter operation answers the completion it was given: before
    it returns, on a later tick, or never. *)
Inductive reply : Type :=
| Now (args : list value)
| Later (args : list value)
| Silent.

Inductive Adapter : Type := MkAdapter {
  supports : op → option reply;     (* [None]: the member is undefined *)
  arity : nat;                      (* [defineForeignKey.length] *)
  factory : option Adapter          (* what [transaction()] returns *)
}.

(** What [require] or an inline handle gives to [setup]: an object with a
    [name] and an [initialize] that may install [schema.adapter] and answers
    its completion. *)
Record Module_ : Type := MkModule {
  m_name : value;
  m_installs : option Adapter;
  m_done : reply
}.

Inductive backend : Type :=
| Unnamed                  (* [name] is falsy *)
| Inline (m : Module_)     (* [typeof name === 'object'] *)
| Named (s : string).

Record Env : Type := MkEnv {
  absolute : string → option Module_;   (* [require(name)] of a path *)
  builtin : string → option Module_;    (* [./adapters/<name>.js] exists *)
  foreign : string → option Module_     (* [require('jugglingdb-' + name)] *)
}.

(** ** DataSource objects and the world *)

Record DataSource : Type := MkDataSource {
  name : value;
  settings : value;
  connected : bool;
  connecting : bool;
  adapter : option Adapter;
  models : loc;
  definitions : loc;
  isTransaction : bool;
  origin : option nat;
  has_connect : bool;      (* the member [connect] was installed *)
  has_exec : bool          (* the member [exec] was installed *)
}.

Inductive event : Type :=
| Called (id : nat) (args : list value)        (* a caller's completion ran *)
| AdapterCall (this : nat) (o : op) (args : list value) (cb : option callback)
| TransactionCall (this : nat)                 (* [adapter.transaction()] *)
| Emitted (this : nat) (what : string)
| Warned (s : string)
| Registered (model : loc) (key : string).     (* [registerProperty(key)] *)

Inductive exn : Type :=
| TypeError (msg : string)
| Error (msg : string)
| Thrown (v : value).

Record world : Type := MkWorld {
  objects : heap;
  sources : list DataSource;
  pending : list (callback * list value);   (* completions for a later tick *)
  trace : list event                        (* oldest first *)
}.

(** ** Computations: state and exceptions *)

Inductive result (A : Type) : Type :=
| Ok (a : A) (w : world)
| Throw (e : exn) (w : world).
Arguments Ok {A} a w.
Arguments Throw {A} e w.

Definition M (A : Type) : Type := world → result A.

Definition ret {A} (a : A) : M A := λ w, Ok a w.
Definition throw {A} (e : exn) : M A := λ w, Throw e w.
Definition bind {A B} (m : M A) (f : A → M B) : M B :=
  λ w, match m w with
       | Ok a w' => f a w'
       | Throw e w' => Throw e w'
       end.

Global Instance M_ret : MRet M := @ret.
Global Instance M_bind : MBind M := λ A B f m, bind m f.

Definition final {A} (r : result A) : world :=
  match r with Ok _ w => w | Throw _ w => w end.

Definition get_heap : M heap := λ w, Ok (objects w) w.
Definition put_heap (h : heap) : M unit :=
  λ w, Ok tt (MkWorld h (sources w) (pending w) (trace w)).
Definition emit (e : event) : M unit :=
  λ w, Ok tt (MkWorld (objects w) (sources w) (pending w) (trace w ++ [e])).
Definition defer (c : callback) (args : list value) : M unit :=
  λ w, Ok tt (MkWorld (objects w) (sources w) (pending w ++ [(c, args)]) (trace w)).

Definition source (this : nat) : M DataSource :=
  λ w, match sources w !! this with
       | Some d => Ok d w
       | None => Throw (TypeError "not a DataSource") w
       end.
Definition update (this : nat) (f : DataSource → DataSource) : M unit :=
  λ w, match sources w !! this with
       | Some d => Ok tt (MkWorld (objects w) (<[this := f d]> (sources w))
                                  (pending w) (trace w))
       | None => Throw (TypeError "not a DataSource") w
       end.
Definition new_source (d : DataSource) : M nat :=
  λ w, Ok (length (sources w))
          (MkWorld (objects w) (sources w ++ [d]) (pending w) (trace w)).

(** [{k1: v1, ...}] and [function () {...}]: a fresh object *)
Definition alloc (o : obj) : M loc :=
  λ w, Ok (length (objects w))
          (MkWorld (objects w ++ [o]) (sources w) (pending w) (trace w)).

Definition literal (fields : list (string * value)) : M value :=
  l ← alloc (Obj None (map (λ kv, (kv.1, data kv.2)) fields)) ; ret (VObj l).

(** [v[k]]: reading a member of undefined or null is a TypeError; the
    members of a DataSource that hold its registries are references to
    heap objects. *)
Definition member (v : value) (k : string) : M value :=
  match v with
  | VUndef | VNull => throw (TypeError (String.append "Cannot read property " k))
  | VObj l => h ← get_heap ; ret (read h l k)
  | VSource d =>
      s ← source d ;
      ret (if String.eqb k "models" then VObj (models s)
           else if String.eqb k "definitions" then VObj (definitions s)
           else if String.eqb k "name" then name s
           else if String.eqb k "settings" then settings s
           else VUndef)
  | _ => ret VUndef
  end.

(** [v[k] = x] for a heap object [v] *)
Definition set_member (v : value) (k : string) (x : value) : M unit :=
  match v with
  | VUndef | VNull => throw (TypeError (String.append "Cannot set property " k))
  | VObj l => h ← get_heap ; put_heap (assign h l k x)
  | _ => ret tt
  end.

(** [k in v] *)
Definition has_member (v : value) (k : string) : M bool :=
  match v with
  | VObj l => h ← get_heap ; ret (has h l k)
  | _ => throw (TypeError "Cannot use 'in' operator")
  end.

(** [Object.defineProperty(where, k, desc)] for a data descriptor with all
    four attributes given: a new own property is created; an existing one
    is replaced when the change is allowed, and the call throws when it is
    not. *)
Definition redefinable (cur desc : prop) : bool :=
  p_configurable cur
  || (negb (p_configurable desc)
      && Bool.eqb (p_enumerable desc) (p_enumerable cur)
      && (p_writable cur
          || (negb (p_writable desc)
              && bool_decide (p_value desc = p_value cur)))).

Definition Object_defineProperty (where_ : value) (k : string) (desc : prop)
  : M unit :=
  match where_ with
  | VObj l =>
      h ← get_heap;
      match h !! l with
      | None => throw (TypeError "Object.defineProperty called on non-object")
      | Some o =>
          match own k (o_props o) with
          | Some cur =>
              if redefinable cur desc
              then put_heap (<[l := Obj (o_proto o) (store k desc (o_props o))]> h)
              else throw (TypeError (String.append "Cannot redefine property: " k))
          | None =>
              put_heap (<[l := Obj (o_proto o) (store k desc (o_props o))]> h)
          end
      end
  | _ => throw (TypeError "Object.defineProperty called on non-object")
  end.

(** [where.__proto__ = p] on a fresh object *)
Definition set_proto (l : loc) (p : value) : M unit :=
  match p with
  | VObj lp =>
      h ← get_heap;
      match h !! l with
      | Some o => put_heap (<[l := Obj (Some lp) (o_props o)]> h)
      | None => ret tt
      end
  | _ => ret tt
  end.

Fixpoint for_each {A} (xs : list A) (body : A → M unit) : M unit :=
  match xs with
  | [] => ret tt
  | x :: xs' => body x;; for_each xs' body
  end.

(** Field updates of a DataSource *)
Definition with_name (v : value) (d : DataSource) : DataSource :=
  MkDataSource v (settings d) (connected d) (connecting d) (adapter d)
    (models d) (definitions d) (isTransaction d) (origin d)
    (has_connect d) (has_exec d).
Definition with_settings (v : value) (d : DataSource) : DataSource :=
  MkDataSource (name d) v (connected d) (connecting d) (adapter d)
    (models d) (definitions d) (isTransaction d) (origin d)
    (has_connect d) (has_exec d).
Definition with_connected (b : bool) (d : DataSource) : DataSource :=
  MkDataSource (name d) (settings d) b (connecting d) (adapter d)
    (models d) (definitions d) (isTransaction d) (origin d)
    (has_connect d) (has_exec d).
Definition with_connecting (b : bool) (d : DataSource) : DataSource :=
  MkDataSource (name d) (settings d) (connected d) b (adapter d)
    (models d) (definitions d) (isTransaction d) (origin d)
    (has_connect d) (has_exec d).
Definition with_adapter (a : option Adapter) (d : DataSource) : DataSource :=
  MkDataSource (name d) (settings d) (connected d) (connecting d) a
    (models d) (definitions d) (isTransaction d) (origin d)
    (has_connect d) (has_exec d).
Definition with_connect (b : bool) (d : DataSource) : DataSource :=
  MkDataSource (name d) (settings d) (connected d) (connecting d) (adapter d)
    (models d) (definitions d) (isTransaction d) (origin d)
    b (has_exec d).

(** [this.adapter], for a use that dereferences it *)
Definition the_adapter (this : nat) : M Adapter :=
  d ← source this;
  match adapter d with
  | Some a => ret a
  | None => throw (TypeError "Cannot read property of undefined (adapter)")
  end.

Definition arg (n : nat) (args : list value) : value :=
  default VUndef (args !! n).

(** ** The functions of lib/datasource.js *)

(** [hiddenProperty(where, property, value)] *)
Definition hiddenProperty (where_ : value) (property : string) (v : value)
  : M unit :=
  Object_defineProperty where_ property (Prop_ v false false false).

(** [defineReadonlyProp(obj, key, value)] *)
Definition defineReadonlyProp (o : value) (key : string) (v : value) : M unit :=
  Object_defineProperty o key (Prop_ v false true true).

(** [this.definitions[className].properties] *)
Definition properties_of (this : nat) (className : string) : M value :=
  defs ← member (VSource this) "definitions";
  td ← member defs className;
  member td "properties".

(** A completion is run: the caller's is recorded with its arguments, the
    closures of this file run their bodies. *)
Definition invoke (c : callback) (args : list value) : M unit :=
  match c with
  | UserCb id => emit (Called id args)
  | InitDone schema =>
      (* the completion given to [adapter.initialize] in [setup]; the [log]
         and [logger] hooks it puts on the adapter are the adapter's own *)
      d ← source schema;
      match adapter d with
      | None =>
          throw (Error "Adapter is not defined correctly: it should create `adapter` member of schema")
      | Some _ =>
          update schema (with_connected true);;
          emit (Emitted schema "connected")
      end
  | ConnectDone schema cb =>
      (* function (err) { ... } in [schema.connect] *)
      let err := arg 0 args in
      (if truthy err then ret tt
       else update schema (with_connected true);;
            update schema (with_connecting false);;
            emit (Emitted schema "connected"));;
      match cb with
      | Some id => emit (Called id [err])
      | None => ret tt
      end
  | ForeignKeyDone this className key =>
      (* function (err, keyType) { ... }.bind(this) in [defineForeignKey] *)
      let err := arg 0 args in
      let keyType := arg 1 args in
      if truthy err then throw (Thrown err)
      else
        ps ← properties_of this className;
        fd ← literal [("type", keyType)];
        set_member ps key fd
  end.

(** The adapter answers the completion it received. *)
Definition answer (r : reply) (cb : option callback) : M unit :=
  match r, cb with
  | Now args, Some c => invoke c args
  | Later args, Some c => defer c args
  | _, _ => ret tt
  end.

(** [adapter.<o>(args..., cb)] *)
Definition adapter_call (this : nat) (a : Adapter) (o : op)
    (args : list value) (cb : option callback) : M unit :=
  match supports a o with
  | None => throw (TypeError "adapter member is not a function")
  | Some r => emit (AdapterCall this o args cb);; answer r cb
  end.

(** One tick of the event loop: the oldest pending completion runs; what it
    throws is thrown out of the callback, with no caller to catch it. *)
Definition tick : M unit :=
  λ w, match pending w with
       | [] => Ok tt w
       | (c, args) :: rest =>
           invoke c args (MkWorld (objects w) (sources w) rest (trace w))
       end.

(** Modelled from the spec: the constructor of the schema compiler in
    lib/adl.js, which is not among the sources; it gives a new DataSource
    its empty [models] and [definitions] registries. *)
Definition ADL_call : M nat :=
  ms ← alloc (Obj None []);
  ds ← alloc (Obj None []);
  new_source (MkDataSource VUndef VUndef false false None ms ds false None
                false false).

(** [DataSource.prototype.setup] *)
Definition resolve (env : Env) (this : nat) (nm : backend)
  : M (option (option Module_)) :=
  match nm with
  | Unnamed => ret (Some None)
  | Inline m => update this (with_name (m_name m));; ret (Some (Some m))
  | Named s =>
      if String.prefix "/" s then
        match absolute env s with
        | Some m => ret (Some (Some m))
        | None => throw (Error "Cannot find module")
        end
      else
        match builtin env s with
        | Some m => ret (Some (Some m))
        | None =>
            match foreign env s with
            | Some m => ret (Some (Some m))
            | None => emit (Warned s);; ret None
            end
        end
  end.

Definition setup (env : Env) (this : nat) (nm : backend) (st : value)
  : M unit :=
  update this (with_name (match nm with Named s => VStr s | _ => VUndef end));;
  update this (with_settings st);;
  update this (with_connected false);;
  update this (with_connecting false);;
  r ← resolve env this nm;
  match r with
  | None => ret tt            (* return console.log(...) *)
  | Some found =>
      match found with
      | Some m =>
          match m_installs m with
          | Some a => update this (with_adapter (Some a))
          | None => ret tt
          end;;
          answer (m_done m) (Some (InitDone this))
      | None => ret tt
      end;;
      update this (with_connect true)
  end.

(** [new DataSource(name, settings)] *)
Definition new_DataSource (env : Env) (nm : backend) (st : value) : M nat :=
  this ← ADL_call;
  setup env this nm st;;
  ret this.

(** [schema.connect], installed by [setup] *)
Definition connect (this : nat) (cb : option nat) : M unit :=
  d ← source this;
  if negb (has_connect d) then throw (TypeError "connect is not a function")
  else
    update this (with_connecting true);;
    a ← the_adapter this;
    match supports a Connect with
    | Some _ => adapter_call this a Connect [] (Some (ConnectDone this cb))
    | None =>
        match cb with
        | Some id => defer (UserCb id) []      (* process.nextTick(cb) *)
        | None => ret tt
        end
    end.

(** Modelled from the spec: [ADL.prototype.define] of lib/adl.js, which is
    not among the sources: the schema compiler builds the constructible
    type, gives it its identity facts and its [registerProperty], and
    stores it with its TypeDescriptor in the registries of [this], in the
    place of an earlier type of that name. *)
Definition ADL_define (this : nat) (className : string)
    (properties settings_ : value) : M value :=
  l ← alloc (Obj None [("registerProperty", data (VFun "registerProperty"))]);
  let NewClass := VObj l in
  rel ← literal [];
  hiddenProperty NewClass "schema" (VSource this);;
  hiddenProperty NewClass "modelName" (VStr className);;
  hiddenProperty NewClass "relations" rel;;
  ms ← member (VSource this) "models";
  set_member ms className NewClass;;
  defs ← member (VSource this) "definitions";
  td ← literal [("properties", properties); ("settings", settings_)];
  set_member defs className td;;
  ret NewClass.

(** [DataSource.prototype.define]; [dao] holds the enumerable members of
    [DataAccessObject] (lib/dao.js).  The members of
    [DataAccessObject.prototype] go to [NewClass.prototype], the prototype
    of instances, which has no part in this file. *)
Definition define (dao : list (string * value)) (this : nat)
    (className : string) (properties settings_ : value) : M value :=
  if String.eqb className "" then throw (Error "Class name required")
  else
    properties ← (if truthy properties then ret properties else literal []);
    settings_ ← (if truthy settings_ then ret settings_ else literal []);
    NewClass ← ADL_define this className properties settings_;
    for_each dao (λ kv, set_member NewClass kv.1 kv.2);;
    d ← source this;
    match adapter d with
    | Some a =>
        o ← literal [("model", NewClass); ("properties", properties);
                     ("settings", settings_)];
        adapter_call this a Define [o] None
    | None => ret tt
    end;;
    ret NewClass.

(** Modelled from the spec: [registerProperty] of a type, which the schema
    compiler of lib/adl.js gives to it and which is not among the sources:
    "the owning type is notified to register the new property with its
    live instances".  The call [model.registerProperty(key)] is recorded;
    it throws when [model] has no such function. *)
Definition registerProperty (model : value) (key : string) : M unit :=
  f ← member model "registerProperty";
  match model, f with
  | VObj l, VFun _ => emit (Registered l key)
  | _, _ => throw (TypeError "registerProperty is not a function")
  end.

(** Modelled from the spec: [ADL.prototype.defineProperty] of lib/adl.js,
    which is not among the sources: it updates the TypeDescriptor of
    [model] in place and has the type register the property. *)
Definition ADL_defineProperty (this : nat) (model prop_ : string)
    (params : value) : M unit :=
  ps ← properties_of this model;
  set_member ps prop_ params;;
  ms ← member (VSource this) "models";
  m ← member ms model;
  registerProperty m prop_.

(** [DataSource.prototype.defineProperty] *)
Definition defineProperty (this : nat) (model prop_ : string) (params : value)
  : M unit :=
  ADL_defineProperty this model prop_ params;;
  a ← the_adapter this;
  match supports a DefineProperty with
  | Some _ =>
      adapter_call this a DefineProperty [VStr model; VStr prop_; params] None
  | None => ret tt
  end.

(** [DataSource.prototype.freeze] *)
Definition freeze (this : nat) : M unit :=
  a ← the_adapter this;
  match supports a FreezeSchema with
  | Some _ => adapter_call this a FreezeSchema [] None
  | None => ret tt
  end.

(** [if (cb) cb(args)] *)
Definition call_if (cb : option nat) (args : list value) : M unit :=
  match cb with
  | Some id => invoke (UserCb id) args
  | None => ret tt
  end.

(** [DataSource.prototype.automigrate] *)
Definition automigrate (this : nat) (cb : option nat) : M unit :=
  freeze this;;
  a ← the_adapter this;
  match supports a Automigrate with
  | Some _ => adapter_call this a Automigrate [] (UserCb <$> cb)
  | None => call_if cb []
  end.

(** [DataSource.prototype.autoupdate] *)
Definition autoupdate (this : nat) (cb : option nat) : M unit :=
  freeze this;;
  a ← the_adapter this;
  match supports a Autoupdate with
  | Some _ => adapter_call this a Autoupdate [] (UserCb <$> cb)
  | None => call_if cb []
  end.

(** [DataSource.prototype.discoverModels] *)
Definition discoverModels (this : nat) (options : value) (cb : option nat)
  : M unit :=
  freeze this;;
  a ← the_adapter this;
  match supports a DiscoverModels with
  | Some _ => adapter_call this a DiscoverModels [options] (UserCb <$> cb)
  | None => call_if cb []
  end.

(** [DataSource.prototype.discoverModelProperties] *)
Definition discoverModelProperties (this : nat) (options : value)
    (cb : option nat) : M unit :=
  freeze this;;
  a ← the_adapter this;
  match supports a DiscoverModelProperties with
  | Some _ =>
      adapter_call this a DiscoverModelProperties [options] (UserCb <$> cb)
  | None => call_if cb []
  end.

(** [DataSource.prototype.discoverPrimaryKeys] *)
Definition discoverPrimaryKeys (this : nat) (owner table : value)
    (cb : option nat) : M unit :=
  freeze this;;
  a ← the_adapter this;
  match supports a DiscoverPrimaryKeys with
  | Some _ =>
      adapter_call this a DiscoverPrimaryKeys [owner; table] (UserCb <$> cb)
  | None => call_if cb []
  end.

(** [DataSource.prototype.discoverForeignKeys] *)
Definition discoverForeignKeys (this : nat) (owner table : value)
    (cb : option nat) : M unit :=
  freeze this;;
  a ← the_adapter this;
  match supports a DiscoverForeignKeys with
  | Some _ =>
      adapter_call this a DiscoverForeignKeys [owner; table] (UserCb <$> cb)
  | None => call_if cb []
  end.

(** [DataSource.prototype.isActual] *)
Definition isActual (this : nat) (cb : option nat) : M unit :=
  freeze this;;
  a ← the_adapter this;
  match supports a IsActual with
  | Some _ => adapter_call this a IsActual [] (UserCb <$> cb)
  | None => call_if cb [VNull; VBool true]
  end.

(** [DataSource.prototype.log] *)
Definition log (this : nat) : M unit := emit (Emitted this "log").

(** [this.definitions[modelName].settings] *)
Definition settings_of (this : nat) (modelName : string) : M value :=
  defs ← member (VSource this) "definitions";
  td ← member defs modelName;
  member td "settings".

(** [DataSource.prototype.tableName]: the target of the assignment is
    evaluated first, then its right-hand side, which is also the value of
    the whole expression. *)
Definition tableName (this : nat) (modelName : string) : M value :=
  st ← settings_of this modelName;
  st' ← settings_of this modelName;
  table ← member st' "table";
  let v := js_or table (VStr modelName) in
  set_member st "table" v;;
  ret v.

(** [DataSource.prototype.defineForeignKey] *)
Definition defineForeignKey (this : nat) (className key : string)
    (foreignClassName : value) : M unit :=
  ps ← properties_of this className;
  cur ← member ps key;
  if truthy cur then ret tt       (* quit if key already defined *)
  else
    a ← the_adapter this;
    match supports a DefineForeignKey with
    | Some _ =>
        let cb := ForeignKeyDone this className key in
        if arity a =? 4 then
          adapter_call this a DefineForeignKey
            [VStr className; VStr key; foreignClassName] (Some cb)
        else
          adapter_call this a DefineForeignKey
            [VStr className; VStr key] (Some cb)
    | None =>
        ps' ← properties_of this className;
        fd ← literal [("type", Number)];
        set_member ps' key fd
    end;;
    ms ← member (VSource this) "models";
    m ← member ms className;
    registerProperty m key.

(** [DataSource.prototype.disconnect] *)
Definition disconnect (this : nat) (cb : option nat) : M unit :=
  a ← the_adapter this;
  match supports a Disconnect with
  | Some _ =>
      update this (with_connected false);;
      adapter_call this a Disconnect [] (UserCb <$> cb)
  | None => call_if cb []
  end.

(** The block of [copyModel] under [if (!(className in schema.models))],
    and its [return Slave]. *)
Definition copyModel_store (this : nat) (className : string) (Slave md : value)
  : M value :=
  ms ← member (VSource this) "models";
  present ← has_member ms className;
  (if (present : bool) then ret tt
   else
     (* store class in model pool *)
     set_member ms className Slave;;
     defs ← member (VSource this) "definitions";
     ps ← member md "properties";
     st ← member md "settings";
     td ← literal [("properties", ps); ("settings", st)];
     set_member defs className td;;
     d ← source this;
     if isTransaction d then ret tt
     else
       a ← the_adapter this;
       ps' ← member md "properties";
       st' ← member md "settings";
       o ← literal [("model", Slave); ("properties", ps'); ("settings", st')];
       adapter_call this a Define [o] None);;
  ret Slave.

(** [DataSource.prototype.copyModel]; [this] is the registry that receives
    the copy.  [util.inherits(Slave, Master)] leaves [super_] on the new
    constructor; the prototype of instances has no part in this file. *)
Definition copyModel (this : nat) (Master : value) : M value :=
  cn ← member Master "modelName";
  let className := to_key cn in
  sch ← member Master "schema";
  mdefs ← member sch "definitions";
  md ← member mdefs className;
  l ← alloc (Obj None []);
  let Slave := VObj l in
  set_member Slave "super_" Master;;
  set_proto l Master;;
  hiddenProperty Slave "schema" (VSource this);;
  hiddenProperty Slave "modelName" cn;;
  rel ← member Master "relations";
  hiddenProperty Slave "relations" rel;;
  copyModel_store this className Slave md.

(** [DataSource.prototype.transaction] *)
Definition transaction (this : nat) : M nat :=
  d ← source this;
  a ← the_adapter this;
  match factory a with
  | None => throw (TypeError "schema.adapter.transaction is not a function")
  | Some ta =>
      emit (TransactionCall this);;
      (* create blank models pool *)
      ms ← alloc (Obj None []);
      ds ← alloc (Obj None []);
      t ← new_source (MkDataSource (name d) (settings d) false false (Some ta)
                        ms ds true (Some this) false true);
      h ← get_heap;
      for_each (for_in h (models d))
        (λ i, smodels ← member (VSource this) "models";
              m ← member smodels i;
              copyModel t m;; ret tt);;
      update t (with_connect (has_connect d));;
      ret t
  end.

(** [transaction.exec] *)
Definition exec (this : nat) (cb : option nat) : M unit :=
  d ← source this;
  if negb (has_exec d) then throw (TypeError "exec is not a function")
  else
    a ← the_adapter this;
    adapter_call this a Exec [] (UserCb <$> cb).

(** ** Vocabulary of the statements *)

(** The seven operations of the discovery delegate, to speak of each of
    them: [run g] is the source function, [op_of g] the adapter member of
    the same name, [passed g args] what the source hands to it and
    [fallback g] what the completion receives when the member is missing. *)
Inductive delegated : Type :=
| DAutomigrate | DAutoupdate | DIsActual
| DDiscoverModels | DDiscoverModelProperties
| DDiscoverPrimaryKeys | DDiscoverForeignKeys.

Definition run (g : delegated) (this : nat) (args : list value)
    (cb : option nat) : M unit :=
  match g with
  | DAutomigrate => automigrate this cb
  | DAutoupdate => autoupdate this cb
  | DIsActual => isActual this cb
  | DDiscoverModels => discoverModels this (arg 0 args) cb
  | DDiscoverModelProperties => discoverModelProperties this (arg 0 args) cb
  | DDiscoverPrimaryKeys => discoverPrimaryKeys this (arg 0 args) (arg 1 args) cb
  | DDiscoverForeignKeys => discoverForeignKeys this (arg 0 args) (arg 1 args) cb
  end.

Definition op_of (g : delegated) : op :=
  match g with
  | DAutomigrate => Automigrate
  | DAutoupdate => Autoupdate
  | DIsActual => IsActual
  | DDiscoverModels => DiscoverModels
  | DDiscoverModelProperties => DiscoverModelProperties
  | DDiscoverPrimaryKeys => DiscoverPrimaryKeys
  | DDiscoverForeignKeys => DiscoverForeignKeys
  end.

Definition passed (g : delegated) (args : list value) : list value :=
  match g with
  | DAutomigrate | DAutoupdate | DIsActual => []
  | DDiscoverModels | DDiscoverModelProperties => [arg 0 args]
  | DDiscoverPrimaryKeys | DDiscoverForeignKeys => [arg 0 args; arg 1 args]
  end.

Definition fallback (g : delegated) : list value :=
  match g with
  | DIsActual => [VNull; VBool true]
  | _ => []
  end.

(** What [freeze] leaves in the trace. *)
Definition frozen (this : nat) (a : Adapter) : list event :=
  match supports a FreezeSchema with
  | Some _ => [AdapterCall this FreezeSchema [] None]
  | None => []
  end.

(** What an answered completion of the caller leaves in the trace and in
    the queue of the next ticks. *)
Definition answered (r : reply) (cb : option nat) : list event :=
  match r, cb with
  | Now args, Some id => [Called id args]
  | _, _ => []
  end.

Definition queued (r : reply) (cb : option callback)
  : list (callback * list value) :=
  match r, cb with
  | Later args, Some c => [(c, args)]
  | _, _ => []
  end.

(** The value of the own property [k] of the object at [l]. *)
Definition own_value (h : heap) (l : loc) (k : string) : option value :=
  o ← h !! l; p ← own k (o_props o); Some (p_value p).

(** ** Sample adapters and worlds *)

Definition nothing_installed : Env := MkEnv (λ _, None) (λ _, None) (λ _, None).

(** A backend that implements only [initialize] and [define]. *)
Definition stub : Adapter :=
  MkAdapter (λ o, match o with Define => Some Silent | _ => None end) 0 None.

Definition stub_module : Module_ := MkModule (VStr "stub") (Some stub) (Now []).

Definition empty_world : world := MkWorld [] [] [] [].

(** [new DataSource(stub_module)] *)
Definition stub_world : world :=
  final (new_DataSource nothing_installed (Inline stub_module) VUndef empty_world).

(** [var ds = new DataSource('nothing'); ds.define('User', {name: 'string'})] *)
Definition adapterless_world : world :=
  final ((ds ← new_DataSource nothing_installed (Named "nothing") VUndef;
          ps ← literal [("name", VStr "string")];
          define [] ds "User" ps VUndef) empty_world).

(** A backend whose [connect] reports an error, on a later tick. *)
Definition unreachable : Adapter :=
  MkAdapter (λ o, match o with
                  | Define => Some Silent
                  | Connect => Some (Later [VStr "ECONNREFUSED"])
                  | _ => None
                  end) 0 None.

Definition unreachable_module : Module_ :=
  MkModule (VStr "unreachable") (Some unreachable) Silent.

Definition unreachable_world : world :=
  final (new_DataSource nothing_installed (Inline unreachable_module) VUndef
           empty_world).

(** A backend that resolves foreign keys on a later tick, with an error
    ([failing_keys]) or with a type ([slow_keys]), and one that answers at
    once ([quick_keys]). *)
Definition keys_adapter (r : reply) : Adapter :=
  MkAdapter (λ o, match o with
                  | Define => Some Silent
                  | DefineForeignKey => Some r
                  | _ => None
                  end) 3 None.

Definition failing_keys : Adapter := keys_adapter (Later [VStr "no such type"]).
Definition slow_keys : Adapter := keys_adapter (Later [VNull; VFun "String"]).
Definition quick_keys : Adapter := keys_adapter (Now [VNull; VFun "String"]).

(** [var ds = new DataSource(adapter); ds.define('A', {})] *)
Definition with_type_A (a : Adapter) : world :=
  final ((ds ← new_DataSource nothing_installed
                  (Inline (MkModule (VStr "keys") (Some a) (Now []))) VUndef;
          define [] ds "A" VUndef VUndef) empty_world).

(** ** What [define] builds *)

(** The constructor that the schema compiler creates for [className]. *)
Definition NewClass_obj (this : nat) (className : string) (rel : value) : obj :=
  Obj None [("registerProperty", data (VFun "registerProperty"));
            ("schema", Prop_ (VSource this) false false false);
            ("modelName", Prop_ (VStr className) false false false);
            ("relations", Prop_ rel false false false)].

(** [v || {}], with the heap it leaves *)
Definition defaulted (v : value) (h : heap) : value * heap :=
  if truthy v then (v, h) else (VObj (length h), h ++ [Obj None []]).

(** The heap after the schema compiler has registered [className] in the
    registries at [ms] and [ds]. *)
Definition ADL_heap (this : nat) (className : string) (P St : value)
    (ms ds : loc) (h : heap) : heap :=
  let n := length h in
  assign
    (assign (h ++ [NewClass_obj this className (VObj (S n)); Obj None []])
       ms className (VObj n)
     ++ [Obj None [("properties", data P); ("settings", data St)]])
    ds className (VObj (S (S n))).

(** [h'] comes from [h] by allocations and by writes to objects that are
    new or listed in [L]: every other object of [h] is as it was. *)
Definition frame (L : list loc) (h h' : heap) : Prop :=
  length h ≤ length h'
  ∧ ∀ l, l < length h → l ∉ L → h' !! l = h !! l.

(** The object at [l] (an object lists a key once) has the own property
    [k], with value [v], read-only, not enumerable, not configurable. *)
Definition hidden_at (l : loc) (k : string) (v : value) (h : heap) : Prop :=
  ∃ o, h !! l = Some o
       ∧ NoDup (keys (o_props o))
       ∧ own k (o_props o) = Some (Prop_ v false false false).

(** The constructor that [copyModel] creates, once its identity facts are
    in place. *)
Definition Slave_obj (proto : option loc) (Master : value) (this : nat)
    (cn rel : value) : obj :=
  Obj proto [("super_", data Master);
             ("schema", Prop_ (VSource this) false false false);
             ("modelName", Prop_ cn false false false);
             ("relations", Prop_ rel false false false)].

(** ** Well-formed registries *)

(** [m] is a type of the registry of [this], stored under its own name
    [i], with a TypeDescriptor for [i] in [defs]: what [define] and
    [copyModel] leave in a registry. *)
Definition is_model (h : heap) (this : nat) (defs : loc) (i : string)
    (m : value) : bool :=
  match m with
  | VObj lm =>
      match own_value h lm "modelName", own_value h lm "schema",
            own_value h lm "relations", own_value h defs i with
      | Some (VStr n), Some (VSource s), Some _, Some (VObj ltd) =>
          String.eqb n i && Nat.eqb s this
          && bool_decide (is_Some (own_value h ltd "properties"))
          && bool_decide (is_Some (own_value h ltd "settings"))
      | _, _, _, _ => false
      end
  | _ => false
  end.

(** The registry of [this]: [models] is a plain object that lists each
    name once, by an enumerable property that holds a type of that name;
    [definitions] is an object. *)
Definition registry_ok (w : world) (this : nat) : bool :=
  match sources w !! this with
  | Some d =>
      match objects w !! models d, objects w !! definitions d with
      | Some (Obj None ps), Some _ =>
          bool_decide (NoDup (keys ps))
          && forallb (λ kp, p_enumerable kp.2
                            && is_model (objects w) this (definitions d)
                                 kp.1 (p_value kp.2)) ps
      | _, _ => false
      end
  | None => false
  end.

(** The names of the declared types: the keys that [for (i in models)]
    visits. *)
Definition type_names (w : world) (this : nat) : list string :=
  match sources w !! this with
  | Some d => for_in (objects w) (models d)
  | None => []
  end.


(** A backend with a transaction factory, and a DataSource over it with
    the types [A] and [B]. *)
Definition transactional : Adapter :=
  MkAdapter (λ o, match o with Define => Some Silent | _ => None end) 0
    (Some (MkAdapter (λ o, match o with Exec => Some (Now []) | _ => None end)
             0 None)).

Definition two_types : world :=
  final ((ds ← new_DataSource nothing_installed
                  (Inline (MkModule (VStr "tx") (Some transactional) (Now [])))
                  VUndef;
          define [] ds "A" VUndef VUndef;;
          define [] ds "B" VUndef VUndef) empty_world).

(** ** The copy that [transaction] makes *)

(** The TypeDescriptor of [i] in the registry at [defs] of the heap [H] is
    an object that [h0] did not have, and its [properties] and [settings]
    are the values that the descriptor of [i] at [defs0] had in [h0]. *)
Definition copied (h0 : heap) (defs0 : loc) (H : heap) (defs : loc)
    (i : string) : Prop :=
  ∃ ltd ltd' P St,
    own_value h0 defs0 i = Some (VObj ltd)
    ∧ own_value h0 ltd "properties" = Some P
    ∧ own_value h0 ltd "settings" = Some St
    ∧ own_value H defs i = Some (VObj ltd')
    ∧ length h0 ≤ ltd' ∧ defs < ltd'
    ∧ own_value H ltd' "properties" = Some P
    ∧ own_value H ltd' "settings" = Some St.

(** The state of the heap while [transaction] copies the types, after
    those of [done]: the objects of the parent heap [h0] are as they were,
    the two new registries, at [length h0] and next to it, list [done]. *)
Definition copying (h0 : heap) (defs0 : loc) (done : list string) (H : heap)
  : Prop :=
  frame [] h0 H
  ∧ (∃ mp, H !! length h0 = Some (Obj None mp) ∧ keys mp = done
           ∧ Forall (λ kp, p_enumerable kp.2 = true) mp)
  ∧ (∃ dp, H !! S (length h0) = Some (Obj None dp) ∧ keys dp = done
           ∧ Forall (λ kp, p_enumerable kp.2 = true) dp)
  ∧ ∀ i, i ∈ done → copied h0 defs0 H (S (length h0)) i.

(** What the registry of [this] holds about the type name [i]. *)
Definition declared (h : heap) (this : nat) (d : DataSource) (i : string)
  : Prop :=
  ∃ lm ltd rel P St,
    own_value h (models d) i = Some (VObj lm)
    ∧ own_value h lm "modelName" = Some (VStr i)
    ∧ own_value h lm "schema" = Some (VSource this)
    ∧ own_value h lm "relations" = Some rel
    ∧ own_value h (definitions d) i = Some (VObj ltd)
    ∧ own_value h ltd "properties" = Some P
    ∧ own_value h ltd "settings" = Some St.

(** The transaction context that [transaction] builds for [d]. *)
Definition context_of (this : nat) (d : DataSource) (ta : Adapter) (n0 : loc)
  : DataSource :=
  MkDataSource (name d) (settings d) false false (Some ta) n0 (S n0) true
    (Some this) (has_connect d) true.

(** [m] keeps the invariant [I] of the heap, whether it returns or
    throws. *)
Definition keeps (I : heap → Prop) {A} (m : M A) : Prop :=
  ∀ w, I (objects w) → I (objects (final (m w))).

(** ** Calls of the interface, to speak of what may follow *)

(** A call of one of the operations of this file other than [connect]. *)
Inductive call : Type :=
| CDefine (dao : list (string * value)) (className : string)
    (properties settings_ : value)
| CDefineProperty (model prop_ : string) (params : value)
| CRun (g : delegated) (args : list value) (cb : option nat)
| CFreeze
| CLog
| CTableName (modelName : string)
| CDefineForeignKey (className key : string) (foreignClassName : value)
| CDisconnect (cb : option nat)
| CCopyModel (Master : value)
| CTransaction
| CExec (cb : option nat).

Definition perform (this : nat) (c : call) : M unit :=
  match c with
  | CDefine dao cn P St => define dao this cn P St;; ret tt
  | CDefineProperty m p params => defineProperty this m p params
  | CRun g args cb => run g this args cb
  | CFreeze => freeze this
  | CLog => log this
  | CTableName t => tableName this t;; ret tt
  | CDefineForeignKey cn key f => defineForeignKey this cn key f
  | CDisconnect cb => disconnect this cb
  | CCopyModel m => copyModel this m;; ret tt
  | CTransaction => transaction this;; ret tt
  | CExec cb => exec this cb
  end.

(** Every DataSource that is connecting in [w] is still connecting in
    [w']. *)
Definition still_connecting (w w' : world) : Prop :=
  ∀ this d, sources w !! this = Some d → connecting d = true →
            ∃ d', sources w' !! this = Some d' ∧ connecting d' = true.

(** [m] resets no [connecting] flag, whether it returns or throws. *)
Definition sticky {A} (m : M A) : Prop :=
  ∀ w, still_connecting w (final (m w)).

(** A completion other than one of [connect] that receives no error. *)
Definition no_success (c : callback) (args : list value) : bool :=
  match c with
  | ConnectDone _ _ => truthy (arg 0 args)
  | _ => true
  end.

(** The worlds that may follow [w]: by calls of the interface other than
    [connect], on any DataSource, and by ticks of the event loop that run
    a completion other than a successful one of [connect]. *)
Inductive later (w : world) : world → Prop :=
| later_now : later w w
| later_call w' other c : later w w' → later w (final (perform other c w'))
| later_tick w' :
    later w w' →
    match pending w' with
    | (c, args) :: _ => no_success c args = true
    | [] => True
    end →
    later w (final (tick w')).

(** A backend whose [autoupdate] reports an error, on a later tick, and a
    DataSource over it. *)
Definition locked : Adapter :=
  MkAdapter (λ o, match o with
                  | Define => Some Silent
                  | Autoupdate => Some (Later [VStr "locked"])
                  | _ => None
                  end) 0 None.

Definition locked_world : world :=
  final (new_DataSource nothing_installed
           (Inline (MkModule (VStr "locked") (Some locked) (Now []))) VUndef
           empty_world).

(** ** Vocabulary of the further properties *)

(** How [setup] finds the module [m] for the backend it is given, in the
    order in which it tries; a name is a string that is not empty. *)
Inductive resolves_to (env : Env) : backend → Module_ → Prop :=
| by_handle m : resolves_to env (Inline m) m
| by_path s m :
    String.prefix "/" s = true → absolute env s = Some m →
    resolves_to env (Named s) m
| by_builtin s m :
    s ≠ EmptyString → String.prefix "/" s = false → builtin env s = Some m →
    resolves_to env (Named s) m
| by_package s m :
    s ≠ EmptyString → String.prefix "/" s = false → builtin env s = None →
    foreign env s = Some m →
    resolves_to env (Named s) m.

(** The [name] that [setup] leaves on the DataSource. *)
Definition name_after (nm : backend) : value :=
  match nm with
  | Unnamed => VUndef
  | Inline m => m_name m
  | Named s => VStr s
  end.

(** The DataSource that the constructor leaves in a world with [n] objects,
    for settings [st], once an adapter is in place or not. *)
Definition constructed (nm : backend) (st : value) (ready : bool)
    (a : option Adapter) (n : loc) : DataSource :=
  MkDataSource (name_after nm) st ready false a n (S n) false None true false.

(** [m] leaves [proj] of the world as it is, whether it returns or throws. *)
Definition preserves {B} (proj : world → B) {A} (m : M A) : Prop :=
  ∀ w, proj (final (m w)) = proj w.

(** The calls that belong to the lifecycle and to the discovery delegate. *)
Definition lifecycle (c : call) : bool :=
  match c with
  | CRun _ _ _ | CFreeze | CLog | CDisconnect _ | CExec _ => true
  | _ => false
  end.

(** A backend with [connect] and [disconnect], which answer on a later
    tick and at once, and a DataSource over it. *)
Definition reachable : Adapter :=
  MkAdapter (λ o, match o with
                  | Define => Some Silent
                  | Connect => Some (Later [])
                  | Disconnect => Some (Now [])
                  | _ => None
                  end) 0 None.

Definition reachable_module : Module_ :=
  MkModule (VStr "reachable") (Some reachable) (Now []).

Definition reachable_world : world :=
  final (new_DataSource nothing_installed (Inline reachable_module) VUndef
           empty_world).

(** A module whose [initialize] forgets to set [schema.adapter]. *)
Definition forgetful_module : Module_ := MkModule (VStr "forgetful") None (Now []).

(** [new DataSource()], with no name. *)
Definition unnamed_world : world :=
  final (new_DataSource nothing_installed Unnamed VUndef empty_world).

(** An installation with one built-in adapter, [memory], shadowing a
    package of the same name. *)
Definition memory_env : Env :=
  MkEnv (λ _, None)
    (λ s, if String.eqb s "memory" then Some stub_module else None)
    (λ s, if String.eqb s "memory" then Some forgetful_module else None).

(** The calls that dereference [this.adapter] before anything else. *)
Definition needs_adapter (c : call) : bool :=
  match c with
  | CRun _ _ _ | CFreeze | CDisconnect _ | CTransaction => true
  | _ => false
  end.

(** The calls that assign no member of a DataSource and create none. *)
Definition keeps_records (c : call) : bool :=
  match c with
  | CDisconnect _ | CTransaction => false
  | _ => true
  end.

(** What the caller's completion leaves in the trace when it is called
    with [args], if there is one. *)
Definition called (cb : option nat) (args : list value) : list event :=
  match cb with
  | Some id => [Called id args]
  | None => []
  end.

(** From [w] to [w'], no DataSource record other than that of [this] has
    changed, and none has been added. *)
Definition only_touches (this : nat) (w w' : world) : Prop :=
  length (sources w') = length (sources w)
  ∧ ∀ that, that ≠ this → sources w' !! that = sources w !! that.



(** * Properties *)

Ltac sim := cbn [objects sources pending trace].


Lemma bind_eq {A B} (m : M A) (f : A → M B) w :
  (m ≫= f) w
  = match m w with Ok a w' => f a w' | Throw e w' => Throw e w' end.
Proof. reflexivity. Qed.

Lemma world_eta w :
  MkWorld (objects w) (sources w) (pending w) (trace w) = w.
Proof. by destruct w. Qed.

Lemma source_eq w this d :
  sources w !! this = Some d → source this w = Ok d w.
Proof. intros H. unfold source. by rewrite H. Qed.

Lemma the_adapter_eq w this d a :
  sources w !! this = Some d → adapter d = Some a →
  the_adapter this w = Ok a w.
Proof.
  intros H Ha. unfold the_adapter.
  by rewrite bind_eq, (source_eq _ _ _ H), Ha.
Qed.

Lemma the_adapter_none w this d :
  sources w !! this = Some d → adapter d = None →
  the_adapter this w
  = Throw (TypeError "Cannot read property of undefined (adapter)") w.
Proof.
  intros H Ha. unfold the_adapter.
  by rewrite bind_eq, (source_eq _ _ _ H), Ha.
Qed.

Lemma freeze_eq w this d a :
  sources w !! this = Some d → adapter d = Some a →
  freeze this w
  = Ok tt (MkWorld (objects w) (sources w) (pending w)
             (trace w ++ frozen this a)).
Proof.
  intros H Ha. unfold freeze, frozen, adapter_call.
  rewrite bind_eq, (the_adapter_eq _ _ _ _ H Ha).
  destruct (supports a FreezeSchema) as [r|].
  - rewrite bind_eq. by destruct r.
  - cbn. by rewrite app_nil_r, world_eta.
Qed.

Lemma freeze_none w this d :
  sources w !! this = Some d → adapter d = None →
  freeze this w
  = Throw (TypeError "Cannot read property of undefined (adapter)") w.
Proof.
  intros H Ha. unfold freeze.
  by rewrite bind_eq, (the_adapter_none _ _ _ H Ha).
Qed.

(** The effect of [adapter.<o>(args, cb)] when the completion is the
    caller's. *)
Lemma adapter_call_user w this a o r args cb :
  supports a o = Some r →
  adapter_call this a o args (UserCb <$> cb) w
  = Ok tt (MkWorld (objects w) (sources w)
             (pending w ++ queued r (UserCb <$> cb))
             (trace w ++ AdapterCall this o args (UserCb <$> cb) :: answered r cb)).
Proof.
  intros Hs. unfold adapter_call. rewrite Hs, bind_eq. cbn.
  destruct r as [xs|xs|], cb as [id|]; cbn; unfold emit, defer; cbn;
    rewrite ?app_nil_r, <- ?app_assoc; reflexivity.
Qed.

Lemma call_if_eq w cb args :
  call_if cb args w
  = Ok tt (MkWorld (objects w) (sources w) (pending w)
             (trace w ++ match cb with Some id => [Called id args] | None => [] end)).
Proof. destruct cb; cbn; unfold emit; by rewrite ?app_nil_r, ?world_eta. Qed.

(** ** Discovery delegate *)

(** The seven operations of the delegate, evaluated: the world after
    [run g], with what the adapter's answer (if any) adds to it. *)
Lemma run_eq g w this d a args cb :
  sources w !! this = Some d → adapter d = Some a →
  run g this args cb w
  = Ok tt (MkWorld (objects w) (sources w)
             (pending w ++ match supports a (op_of g) with
                           | Some r => queued r (UserCb <$> cb)
                           | None => []
                           end)
             (trace w ++ frozen this a
                ++ match supports a (op_of g) with
                   | Some r =>
                       AdapterCall this (op_of g) (passed g args) (UserCb <$> cb)
                       :: answered r cb
                   | None =>
                       match cb with
                       | Some id => [Called id (fallback g)]
                       | None => []
                       end
                   end)).
Proof.
  intros H Ha.
  assert (Hstep : ∀ (k : Adapter → M unit),
    (freeze this;; a' ← the_adapter this; k a') w
    = k a (MkWorld (objects w) (sources w) (pending w) (trace w ++ frozen this a))).
  { intros k. rewrite bind_eq, (freeze_eq _ _ _ _ H Ha), bind_eq.
    by rewrite (the_adapter_eq _ this d a). }
  destruct g; unfold run, automigrate, autoupdate, isActual, discoverModels,
    discoverModelProperties, discoverPrimaryKeys, discoverForeignKeys;
    rewrite Hstep; cbn [op_of passed fallback];
    match goal with
    | |- context [supports a ?o] => destruct (supports a o) as [r|] eqn:Hs
    end;
    first [ rewrite (adapter_call_user _ _ _ _ r _ _ Hs)
          | rewrite call_if_eq ];
    cbn [objects sources pending trace];
    by rewrite ?app_nil_r, <- ?app_assoc.
Qed.

(** C5: with a live adapter, each of automigrate, autoupdate, isActual,
    discoverModels, discoverModelProperties, discoverPrimaryKeys and
    discoverForeignKeys returns normally; what it does is, in this order,
    freeze (the adapter's freezeSchema when it has one), then the adapter
    operation of the same name with the caller's arguments and completion
    when the adapter has it, and otherwise the caller's completion with no
    error argument, isActual giving it [(null, true)]. *)
Theorem discovery_forwards g w this d a args cb :
  sources w !! this = Some d → adapter d = Some a →
  ∃ w',
    run g this args (Some cb) w = Ok tt w'
    ∧ objects w' = objects w ∧ sources w' = sources w
    ∧ trace w'
      = trace w ++ frozen this a
        ++ match supports a (op_of g) with
           | Some r =>
               AdapterCall this (op_of g) (passed g args) (Some (UserCb cb))
               :: answered r (Some cb)
           | None => [Called cb (fallback g)]
           end
    ∧ pending w'
      = pending w ++ match supports a (op_of g) with
                     | Some r => queued r (Some (UserCb cb))
                     | None => []
                     end.
Proof.
  intros Hd Ha. eexists. split; [by apply (run_eq g w this d a)|].
  by sim.
Qed.

Lemma discovery_forwards_witness :
  ∃ w',
    run DIsActual 0 [] (Some 1) stub_world = Ok tt w'
    ∧ objects w' = objects stub_world ∧ sources w' = sources stub_world
    ∧ trace w' = trace stub_world ++ [] ++ [Called 1 [VNull; VBool true]]
    ∧ pending w' = pending stub_world ++ [].
Proof.
  exact (discovery_forwards DIsActual stub_world 0
           (MkDataSource (VStr "stub") VUndef true false
              (Some stub) 0 1 false None true false)
           stub [] 1 eq_refl eq_refl).
Defined.

(** ** Connection lifecycle *)

(** C3, as the code has it: when the adapter has no connect operation,
    [connect(completion)] does set [connecting] to true before it looks at
    the adapter; it leaves [connected] as it was, runs nothing at once and
    hands the completion to the next tick, where it is called with no
    argument, hence no error. *)
Theorem connect_without_adapter_connect w this d a cb :
  sources w !! this = Some d → has_connect d = true →
  adapter d = Some a → supports a Connect = None →
  let w1 := MkWorld (objects w) (<[this := with_connecting true d]> (sources w))
              (pending w ++ [(UserCb cb, [])]) (trace w) in
  connect this (Some cb) w = Ok tt w1
  ∧ (∃ d', sources w1 !! this = Some d'
           ∧ connected d' = connected d ∧ connecting d' = true)
  ∧ (pending w = [] →
     tick w1 = Ok tt (MkWorld (objects w1) (sources w1) []
                        (trace w ++ [Called cb []]))).
Proof.
  intros H Hc Ha Hs w1. split; [|split].
  - unfold connect. rewrite bind_eq, (source_eq _ _ _ H), Hc. cbn [negb].
    rewrite bind_eq. unfold update at 1. rewrite H.
    rewrite bind_eq.
    erewrite the_adapter_eq; [|cbn [sources];
      apply list_lookup_insert_eq; by eapply lookup_lt_Some|exact Ha].
    by rewrite Hs.
  - exists (with_connecting true d). split; [|done].
    cbn. apply list_lookup_insert_eq. by eapply lookup_lt_Some.
  - intros Hp. unfold tick, w1. cbn. by rewrite Hp.
Qed.

Lemma connect_without_adapter_connect_witness :
  let d := MkDataSource (VStr "stub") VUndef true false (Some stub) 0 1
             false None true false in
  let w1 := MkWorld (objects stub_world)
              (<[0 := with_connecting true d]> (sources stub_world))
              (pending stub_world ++ [(UserCb 1, [])]) (trace stub_world) in
  connect 0 (Some 1) stub_world = Ok tt w1
  ∧ (∃ d', sources w1 !! 0 = Some d'
           ∧ connected d' = connected d ∧ connecting d' = true)
  ∧ (pending stub_world = [] →
     tick w1 = Ok tt (MkWorld (objects w1) (sources w1) []
                        (trace stub_world ++ [Called 1 []]))).
Proof.
  exact (connect_without_adapter_connect stub_world 0
           (MkDataSource (VStr "stub") VUndef true false (Some stub) 0 1
              false None true false)
           stub 1 eq_refl eq_refl eq_refl eq_refl).
Defined.

(** C3, counterexample to the claim as stated: a DataSource over the stub
    backend (no connect operation) has [connecting = false]; after
    [connect(cb)] the flag is true. *)
Lemma connect_sets_connecting_without_adapter_connect :
  supports stub Connect = None
  ∧ connecting <$> sources stub_world !! 0 = Some false
  ∧ connecting <$> sources (final (connect 0 (Some 1) stub_world)) !! 0
    = Some true.
Proof. split; [|split]; vm_compute; reflexivity. Qed.

(** A completion of [connect] that receives an error changes no flag and
    hands the error to the caller's completion. *)
Lemma connect_done_error w schema cb args :
  truthy (arg 0 args) = true →
  invoke (ConnectDone schema cb) args w
  = Ok tt (MkWorld (objects w) (sources w) (pending w)
             (trace w ++ match cb with
                         | Some id => [Called id [arg 0 args]]
                         | None => []
                         end)).
Proof.
  intros He. unfold invoke. rewrite He, bind_eq. cbn.
  destruct cb; unfold emit; cbn; by rewrite ?app_nil_r, ?world_eta.
Qed.


(** ** Property lists and heaps *)

Lemma own_store_eq k p ps : own k (store k p ps) = Some p.
Proof.
  induction ps as [|[k' p'] ps IH]; cbn.
  - by rewrite String.eqb_refl.
  - destruct (String.eqb k k') eqn:E; cbn; rewrite ?String.eqb_refl, ?E; done.
Qed.

Lemma own_store_ne k k' p ps : k ≠ k' → own k' (store k p ps) = own k' ps.
Proof.
  intros Hne. induction ps as [|[k0 p0] ps IH]; cbn.
  - destruct (String.eqb_spec k' k); congruence.
  - destruct (String.eqb_spec k k0) as [->|]; cbn.
    + destruct (String.eqb_spec k' k0); congruence.
    + by rewrite IH.
Qed.

Lemma store_absent k p ps : own k ps = None → store k p ps = ps ++ [(k, p)].
Proof.
  induction ps as [|[k' p'] ps IH]; cbn; [done|].
  destruct (String.eqb k k'); [done|]. intros H. by rewrite IH.
Qed.

Lemma own_absent_keys k ps : own k ps = None ↔ k ∉ keys ps.
Proof.
  induction ps as [|[k' p'] ps IH]; cbn.
  - split; [intros _; apply not_elem_of_nil|done].
  - rewrite not_elem_of_cons. destruct (String.eqb_spec k k') as [->|Hne].
    + split; [done|]. by intros [? _].
    + rewrite IH. tauto.
Qed.

Lemma own_app_absent k ps p k' :
  own k ps = None → own k' (ps ++ [(k, p)]) = if String.eqb k' k then Some p else own k' ps.
Proof.
  intros H. rewrite <- (store_absent _ _ _ H).
  destruct (String.eqb_spec k' k) as [->|Hne].
  - apply own_store_eq.
  - by apply own_store_ne.
Qed.

Lemma find_own fuel h l o k p :
  h !! l = Some o → own k (o_props o) = Some p → find (S fuel) h l k = Some p.
Proof. intros Hl Ho. cbn. by rewrite Hl, Ho. Qed.

Lemma lookup_chain_own h l o k p :
  h !! l = Some o → own k (o_props o) = Some p → lookup_chain h l k = Some p.
Proof. apply find_own. Qed.

Lemma lookup_chain_plain h l o k :
  h !! l = Some o → o_proto o = None → lookup_chain h l k = own k (o_props o).
Proof.
  intros Hl Hp. unfold lookup_chain. cbn. rewrite Hl, Hp.
  by destruct (own k (o_props o)).
Qed.

Lemma own_value_Some h l k v :
  own_value h l k = Some v ↔
  ∃ o p, h !! l = Some o ∧ own k (o_props o) = Some p ∧ p_value p = v.
Proof.
  unfold own_value. split.
  - destruct (h !! l) as [o|]; [|done]. cbn.
    destruct (own k (o_props o)) as [p|] eqn:Hp; [|done]. cbn.
    intros [= <-]. by exists o, p.
  - intros (o & p & -> & Hp & <-). cbn. by rewrite Hp.
Qed.

Lemma read_own h l k v : own_value h l k = Some v → read h l k = v.
Proof.
  intros (o & p & Hl & Hp & <-)%own_value_Some. unfold read.
  by rewrite (lookup_chain_own _ _ _ _ _ Hl Hp).
Qed.

Lemma length_assign h l k v : length (assign h l k v) = length h.
Proof.
  unfold assign. repeat case_match; by rewrite ?length_insert.
Qed.

Lemma lookup_assign_ne h l k v l' : l ≠ l' → assign h l k v !! l' = h !! l'.
Proof.
  intros Hne. unfold assign.
  repeat case_match; by rewrite ?list_lookup_insert_ne.
Qed.

Ltac norm :=
  repeat (rewrite length_app || rewrite length_assign || rewrite length_insert);
  cbn [length map fst snd]; rewrite ?Nat.add_succ_r, ?Nat.add_0_r.

(** Assignment to a key that a plain object does not have yet *)
Lemma assign_new h l ps k v :
  h !! l = Some (Obj None ps) → own k ps = None →
  assign h l k v = <[l := Obj None (ps ++ [(k, data v)])]> h.
Proof.
  intros Hl Hk. unfold assign. rewrite Hl.
  rewrite (lookup_chain_plain _ _ _ _ Hl eq_refl). cbn. rewrite Hk.
  by rewrite store_absent.
Qed.

Lemma lookup_fresh {A} (h : list A) o r : (h ++ o :: r) !! length h = Some o.
Proof. by apply list_lookup_middle. Qed.

Lemma insert_fresh {A} (h : list A) o o' r :
  <[length h := o']> (h ++ o :: r) = h ++ o' :: r.
Proof.
  replace (length h) with (length h + 0) by lia.
  by rewrite insert_app_r.
Qed.

(** ** The primitive computations *)

Lemma alloc_eq o w :
  alloc o w = Ok (length (objects w))
                (MkWorld (objects w ++ [o]) (sources w) (pending w) (trace w)).
Proof. reflexivity. Qed.

Lemma literal_eq fields w :
  literal fields w
  = Ok (VObj (length (objects w)))
       (MkWorld (objects w ++ [Obj None (map (λ kv, (kv.1, data kv.2)) fields)])
          (sources w) (pending w) (trace w)).
Proof. reflexivity. Qed.

Lemma member_obj l k w : member (VObj l) k w = Ok (read (objects w) l k) w.
Proof. reflexivity. Qed.

Lemma member_models this d w :
  sources w !! this = Some d →
  member (VSource this) "models" w = Ok (VObj (models d)) w.
Proof. intros H. cbn. unfold source. by rewrite bind_eq, H. Qed.

Lemma member_definitions this d w :
  sources w !! this = Some d →
  member (VSource this) "definitions" w = Ok (VObj (definitions d)) w.
Proof. intros H. cbn. unfold source. by rewrite bind_eq, H. Qed.

Lemma set_member_obj l k v w :
  set_member (VObj l) k v w
  = Ok tt (MkWorld (assign (objects w) l k v) (sources w) (pending w) (trace w)).
Proof. reflexivity. Qed.

Lemma has_member_obj l k w :
  has_member (VObj l) k w = Ok (has (objects w) l k) w.
Proof. reflexivity. Qed.

Lemma defineProperty_new l o k desc w :
  objects w !! l = Some o → own k (o_props o) = None →
  Object_defineProperty (VObj l) k desc w
  = Ok tt (MkWorld (<[l := Obj (o_proto o) (o_props o ++ [(k, desc)])]> (objects w))
             (sources w) (pending w) (trace w)).
Proof.
  intros Hl Hk. unfold Object_defineProperty, get_heap.
  rewrite bind_eq, Hl, Hk. by rewrite store_absent.
Qed.

Lemma set_proto_obj l o lp w :
  objects w !! l = Some o →
  set_proto l (VObj lp) w
  = Ok tt (MkWorld (<[l := Obj (Some lp) (o_props o)]> (objects w))
             (sources w) (pending w) (trace w)).
Proof. intros Hl. unfold set_proto, get_heap. by rewrite bind_eq, Hl. Qed.

(** A member is read without any effect. *)
Lemma member_pure v k w : final (member v k w) = w.
Proof.
  destruct v; try reflexivity.
  cbn. unfold source. rewrite bind_eq. by destruct (sources w !! d).
Qed.

(** ** Frames *)

Lemma frame_refl L h : frame L h h.
Proof. by split. Qed.

Lemma frame_app L h0 h x : frame L h0 h → frame L h0 (h ++ x).
Proof.
  intros [Hlen Hl]. split.
  - rewrite length_app. lia.
  - intros l Hlt Hn. rewrite lookup_app_l by lia. by apply Hl.
Qed.

Lemma frame_insert L h0 h l (o : obj) :
  frame L h0 h → l ∈ L ∨ length h0 ≤ l → frame L h0 (<[l := o]> h).
Proof.
  intros [Hlen Hl] Hwhere. split.
  - by rewrite length_insert.
  - intros l' Hlt Hn. rewrite list_lookup_insert_ne; [by apply Hl|].
    intros ->. destruct Hwhere; [done|lia].
Qed.

Lemma frame_assign L h0 h l k v :
  frame L h0 h → l ∈ L ∨ length h0 ≤ l → frame L h0 (assign h l k v).
Proof.
  intros [Hlen Hl] Hwhere. split.
  - by rewrite length_assign.
  - intros l' Hlt Hn. rewrite lookup_assign_ne; [by apply Hl|].
    intros ->. destruct Hwhere; [done|lia].
Qed.


(** ** [define] *)

Lemma ADL_define_eq this cn P St w d :
  sources w !! this = Some d →
  ADL_define this cn P St w
  = Ok (VObj (length (objects w)))
      (MkWorld (ADL_heap this cn P St (models d) (definitions d) (objects w))
         (sources w) (pending w) (trace w)).
Proof.
  intros Hd. unfold ADL_define, ADL_heap, NewClass_obj, hiddenProperty.
  rewrite bind_eq, alloc_eq. sim.
  rewrite bind_eq, literal_eq. sim. rewrite <- app_assoc. cbn [app map].
  do 3 (rewrite bind_eq;
        erewrite defineProperty_new; [|sim; apply lookup_fresh|reflexivity];
        sim; rewrite insert_fresh; cbn [o_proto o_props app]).
  rewrite bind_eq, (member_models _ d) by done.
  rewrite bind_eq, set_member_obj. sim.
  rewrite bind_eq, (member_definitions _ d) by done.
  rewrite bind_eq, literal_eq. sim.
  rewrite bind_eq, set_member_obj. sim.
  norm. reflexivity.
Qed.

Lemma for_each_set_member l (dao : list (string * value)) w :
  for_each dao (λ kv, set_member (VObj l) kv.1 kv.2) w
  = Ok tt (MkWorld (fold_left (λ h kv, assign h l kv.1 kv.2) dao (objects w))
             (sources w) (pending w) (trace w)).
Proof.
  revert w. induction dao as [|kv dao IH]; intros w.
  - cbn. by rewrite world_eta.
  - cbn [for_each fold_left]. rewrite bind_eq, set_member_obj.
    by rewrite IH.
Qed.


Lemma defaulted_eq v w :
  (if truthy v then mret v else literal []) w
  = Ok (defaulted v (objects w)).1
       (MkWorld (defaulted v (objects w)).2 (sources w) (pending w) (trace w)).
Proof.
  unfold defaulted. destruct (truthy v); cbn; by rewrite ?world_eta.
Qed.


(** [define] in full: the heap it builds, and the call of the adapter
    when there is one. *)
Lemma define_eq dao this cn P St w d :
  sources w !! this = Some d → cn ≠ "" →
  let P' := (defaulted P (objects w)).1 in
  let h1 := (defaulted P (objects w)).2 in
  let St' := (defaulted St h1).1 in
  let h2 := (defaulted St h1).2 in
  let T := VObj (length h2) in
  let h3 := fold_left (λ h kv, assign h (length h2) kv.1 kv.2) dao
              (ADL_heap this cn P' St' (models d) (definitions d) h2) in
  let o := Obj None [("model", data T); ("properties", data P');
                     ("settings", data St')] in
  define dao this cn P St w
  = match adapter d with
    | None => Ok T (MkWorld h3 (sources w) (pending w) (trace w))
    | Some a =>
        match supports a Define with
        | Some _ =>
            Ok T (MkWorld (h3 ++ [o]) (sources w) (pending w)
                    (trace w ++ [AdapterCall this Define [VObj (length h3)] None]))
        | None =>
            Throw (TypeError "adapter member is not a function")
              (MkWorld (h3 ++ [o]) (sources w) (pending w) (trace w))
        end
    end.
Proof.
  intros Hd Hcn. cbn zeta. unfold define.
  destruct (String.eqb_spec cn "") as [|_]; [done|].
  rewrite bind_eq, defaulted_eq.
  rewrite bind_eq, defaulted_eq. sim.
  rewrite bind_eq, (ADL_define_eq _ _ _ _ _ d) by done. sim.
  rewrite bind_eq, for_each_set_member. sim.
  rewrite bind_eq, (source_eq _ _ d) by done.
  rewrite bind_eq.
  destruct (adapter d) as [a|]; [|reflexivity].
  rewrite bind_eq, literal_eq. sim. unfold adapter_call.
  destruct (supports a Define) as [r|]; [|reflexivity].
  rewrite bind_eq. unfold emit. sim. by destruct r.
Qed.


Lemma update_eq this f d w :
  sources w !! this = Some d →
  update this f w
  = Ok tt (MkWorld (objects w) (<[this := f d]> (sources w)) (pending w) (trace w)).
Proof. intros H. unfold update. by rewrite H. Qed.

(** ** Adapter loading *)

(** [new DataSource(name, settings)] when no adapter can be found for
    [name]: a warning, and a DataSource without adapter and without
    [connect]. *)
Lemma new_DataSource_unresolved env s st w :
  String.prefix "/" s = false → builtin env s = None → foreign env s = None →
  new_DataSource env (Named s) st w
  = Ok (length (sources w))
      (MkWorld (objects w ++ [Obj None []; Obj None []])
         (sources w ++ [MkDataSource (VStr s) st false false None
                          (length (objects w)) (S (length (objects w)))
                          false None false false])
         (pending w) (trace w ++ [Warned s])).
Proof.
  intros Hp Hb Hf. unfold new_DataSource, ADL_call, new_source.
  repeat first [rewrite bind_eq | rewrite alloc_eq | progress sim].
  norm. rewrite <- app_assoc. cbn [app].
  unfold setup.
  do 4 (rewrite bind_eq; erewrite update_eq by (sim; apply lookup_fresh);
        sim; rewrite insert_fresh).
  rewrite bind_eq. unfold resolve. rewrite Hp, Hb, Hf.
  rewrite bind_eq. unfold emit. sim. reflexivity.
Qed.




(** ** Errors reported by the backend *)

(** C4, as the code has it: the discovery and migration operations hand
    the caller's own completion to the adapter, so that an error reported
    by the backend, at once or on a later tick, reaches that completion as
    its first argument and nothing is thrown; but the completion that
    [defineForeignKey] hands to the adapter throws the error it receives,
    from inside the callback, and installs nothing. *)
Theorem backend_error_delivery w this d a g args cb r err rest :
  sources w !! this = Some d → adapter d = Some a →
  supports a (op_of g) = Some r →
  r = Now (err :: rest) ∨ r = Later (err :: rest) →
  truthy err = true → pending w = [] →
  (run g this args (Some cb);; tick) w
  = Ok tt (MkWorld (objects w) (sources w) []
             (trace w ++ frozen this a
                ++ [AdapterCall this (op_of g) (passed g args)
                      (Some (UserCb cb));
                    Called cb (err :: rest)]))
  ∧ ∀ cn key w0,
      invoke (ForeignKeyDone this cn key) (err :: rest) w0
      = Throw (Thrown err) w0.
Proof.
  intros Hd Ha Hs Hr He Hp. split.
  - rewrite bind_eq, (run_eq g w this d a args (Some cb) Hd Ha), Hs.
    unfold tick. sim. rewrite Hp.
    destruct Hr as [-> | ->]; cbn [queued answered fmap option_fmap option_map app].
    + reflexivity.
    + cbn [invoke]. unfold emit. sim.
      by rewrite <- !app_assoc.
  - intros cn key w0. unfold invoke. cbn [arg lookup list_lookup default].
    cbn. by rewrite He.
Qed.

Lemma backend_error_delivery_witness :
  (run DAutoupdate 0 [] (Some 1);; tick) locked_world
  = Ok tt (MkWorld (objects locked_world) (sources locked_world) []
             (trace locked_world ++ frozen 0 locked
                ++ [AdapterCall 0 Autoupdate [] (Some (UserCb 1));
                    Called 1 [VStr "locked"]]))
  ∧ ∀ cn key w0,
      invoke (ForeignKeyDone 0 cn key) [VStr "locked"] w0
      = Throw (Thrown (VStr "locked")) w0.
Proof.
  exact (backend_error_delivery locked_world 0
           (MkDataSource (VStr "locked") VUndef true false (Some locked) 0 1
              false None true false)
           locked DAutoupdate [] 1 (Later [VStr "locked"]) (VStr "locked") []
           eq_refl eq_refl eq_refl (or_intror eq_refl) eq_refl eq_refl).
Defined.

(** C4, counterexample to the claim as stated: the backend resolves the
    key type of [A.bId] on a later tick and reports an error;
    [defineForeignKey] has returned normally, and the error is thrown from
    inside the completion when the tick runs it. *)
Lemma foreign_key_error_thrown_from_callback :
  ∃ w1 w2,
    defineForeignKey 0 "A" "bId" (VStr "B") (with_type_A failing_keys) = Ok tt w1
    ∧ pending w1 = [(ForeignKeyDone 0 "A" "bId", [VStr "no such type"])]
    ∧ tick w1 = Throw (Thrown (VStr "no such type")) w2.
Proof.
  exists (final (defineForeignKey 0 "A" "bId" (VStr "B") (with_type_A failing_keys))).
  exists (final (tick (final (defineForeignKey 0 "A" "bId" (VStr "B")
                                (with_type_A failing_keys))))).
  split; [|split]; vm_compute; reflexivity.
Qed.

(** ** Reading after an assignment *)

Lemma own_value_assign_other h l k v l' k' :
  l ≠ l' ∨ k ≠ k' →
  own_value (assign h l k v) l' k' = own_value h l' k'.
Proof.
  intros Hne. unfold own_value.
  destruct (decide (l = l')) as [<-|Hl]; [|by rewrite lookup_assign_ne].
  destruct Hne as [|Hk]; [done|].
  unfold assign. destruct (h !! l) as [o|] eqn:Ho; [|by rewrite Ho].
  assert (Hin : ∀ p, (<[l := Obj (o_proto o) (store k p (o_props o))]> h) !! l
                     ≫= (λ o', own k' (o_props o') ≫= λ q, Some (p_value q))
                     = own k' (o_props o) ≫= λ q, Some (p_value q)).
  { intros p. rewrite list_lookup_insert_eq by (by eapply lookup_lt_Some).
    cbn. by rewrite own_store_ne. }
  repeat case_match; rewrite ?Hin, ?Ho; reflexivity.
Qed.


(** ** [tableName] *)

Lemma settings_of_eq w this d t ltd sv :
  sources w !! this = Some d →
  own_value (objects w) (definitions d) t = Some (VObj ltd) →
  own_value (objects w) ltd "settings" = Some sv →
  settings_of this t w = Ok sv w.
Proof.
  intros Hd Htd Hsv. unfold settings_of.
  rewrite bind_eq, (member_definitions _ d) by done.
  rewrite bind_eq, member_obj, (read_own _ _ _ _ Htd).
  by rewrite member_obj, (read_own _ _ _ _ Hsv).
Qed.




(** ** [defineForeignKey] *)

Lemma own_value_app h x l k v :
  own_value h l k = Some v → own_value (h ++ x) l k = Some v.
Proof.
  intros (o & p & Hl & Hp & Hv)%own_value_Some. apply own_value_Some.
  exists o, p. split; [by apply lookup_app_l_Some|done].
Qed.

Lemma properties_of_eq w this d cn ltd pv :
  sources w !! this = Some d →
  own_value (objects w) (definitions d) cn = Some (VObj ltd) →
  own_value (objects w) ltd "properties" = Some pv →
  properties_of this cn w = Ok pv w.
Proof.
  intros Hd Htd Hpv. unfold properties_of.
  rewrite bind_eq, (member_definitions _ d) by done.
  rewrite bind_eq, member_obj, (read_own _ _ _ _ Htd).
  by rewrite member_obj, (read_own _ _ _ _ Hpv).
Qed.

(** Assignment to a plain object whose property, if there is one, is
    writable: the value is stored. *)
Lemma read_assign_plain h l ps k v :
  h !! l = Some (Obj None ps) →
  match own k ps with Some p => p_writable p | None => true end = true →
  read (assign h l k v) l k = v.
Proof.
  intros Hl Hw.
  assert (Hin : ∀ p, p_value p = v →
            read (<[l := Obj None (store k p ps)]> h) l k = v).
  { intros p <-. apply read_own. apply own_value_Some.
    eexists _, p. split; [|split; [|done]].
    - apply list_lookup_insert_eq. by eapply lookup_lt_Some.
    - apply own_store_eq. }
  unfold assign. rewrite Hl, (lookup_chain_plain _ _ _ _ Hl eq_refl). cbn.
  destruct (own k ps) as [p|]; [rewrite Hw|]; by apply Hin.
Qed.

(** What follows the resolution in [defineForeignKey] touches neither the
    heap nor the DataSource records. *)
Lemma register_tail this cn key w :
  objects (final ((ms ← member (VSource this) "models";
                   m ← member ms cn;
                   registerProperty m key) w)) = objects w
  ∧ sources (final ((ms ← member (VSource this) "models";
                     m ← member ms cn;
                     registerProperty m key) w)) = sources w.
Proof.
  rewrite bind_eq.
  pose proof (member_pure (VSource this) "models" w) as H1.
  destruct (member (VSource this) "models" w) as [ms w1|e w1];
    cbn in H1; subst w1; [|done].
  rewrite bind_eq.
  pose proof (member_pure ms cn w) as H2.
  destruct (member ms cn w) as [m w1|e w1]; cbn in H2; subst w1; [|done].
  unfold registerProperty. rewrite bind_eq.
  pose proof (member_pure m "registerProperty" w) as H3.
  destruct (member m "registerProperty" w) as [f w1|e w1];
    cbn in H3; subst w1; [|done].
  destruct m, f; done.
Qed.

(** C7, as the code has it: [defineForeignKey] does nothing when the key
    is already there; and when the resolution completes before the call
    returns (the adapter has no foreign-key resolution, or it answers at
    once and without error), the field is present after the first call and
    a second call for the same type and key is a no-op: it does no
    resolution and changes nothing. *)
Theorem defineForeignKey_second_call_is_noop w this d a cn key f ltd lp ps :
  sources w !! this = Some d → adapter d = Some a →
  own_value (objects w) (definitions d) cn = Some (VObj ltd) →
  own_value (objects w) ltd "properties" = Some (VObj lp) →
  lp ≠ definitions d → lp ≠ ltd →
  objects w !! lp = Some (Obj None ps) →
  match own key ps with Some p => p_writable p | None => true end = true →
  (supports a DefineForeignKey = None
   ∨ ∃ args, supports a DefineForeignKey = Some (Now args)
             ∧ truthy (arg 0 args) = false) →
  let w1 := final (defineForeignKey this cn key f w) in
  (truthy (read (objects w) lp key) = true →
   defineForeignKey this cn key f w = Ok tt w)
  ∧ truthy (read (objects w1) lp key) = true
  ∧ defineForeignKey this cn key f w1 = Ok tt w1.
Proof.
  intros Hd Ha Htd Hps Hne1 Hne2 Hlp Hw Hres w1.
  assert (Hnoop : ∀ w', sources w' !! this = Some d →
      own_value (objects w') (definitions d) cn = Some (VObj ltd) →
      own_value (objects w') ltd "properties" = Some (VObj lp) →
      truthy (read (objects w') lp key) = true →
      defineForeignKey this cn key f w' = Ok tt w').
  { intros w' Hd' Htd' Hps' Ht. unfold defineForeignKey.
    rewrite bind_eq, (properties_of_eq _ _ d _ ltd (VObj lp)) by done.
    by rewrite bind_eq, member_obj, Ht. }
  split; [by apply Hnoop|].
  destruct (truthy (read (objects w) lp key)) eqn:Hcur.
  { unfold w1. rewrite Hnoop by done. cbn [final].
    split; [done|by apply Hnoop]. }
  (* the key is not there: the first call installs it *)
  assert (Hinstall : ∃ kt tr,
    let h1 := assign (objects w ++ [Obj None [("type", data kt)]]) lp key
                (VObj (length (objects w))) in
    defineForeignKey this cn key f w
    = (ms ← member (VSource this) "models";
       m ← member ms cn;
       registerProperty m key)
        (MkWorld h1 (sources w) (pending w) tr)).
  { unfold defineForeignKey.
    rewrite bind_eq, (properties_of_eq _ _ d _ ltd (VObj lp)) by done.
    rewrite bind_eq, member_obj, Hcur.
    rewrite bind_eq, (the_adapter_eq _ _ d a) by done.
    destruct Hres as [Hs | (args & Hs & He)]; rewrite Hs.
    - exists Number, (trace w).
      rewrite !bind_eq, (properties_of_eq _ _ d _ ltd (VObj lp)) by done.
      rewrite bind_eq, literal_eq. sim.
      by rewrite set_member_obj.
    - exists (arg 1 args), (trace w ++ [AdapterCall this DefineForeignKey
         (if arity a =? 4 then [VStr cn; VStr key; f] else [VStr cn; VStr key])
         (Some (ForeignKeyDone this cn key))]).
      assert (Hcb : ∀ xs,
        adapter_call this a DefineForeignKey xs
          (Some (ForeignKeyDone this cn key)) w
        = Ok tt (MkWorld
            (assign (objects w ++ [Obj None [("type", data (arg 1 args))]])
               lp key (VObj (length (objects w))))
            (sources w) (pending w)
            (trace w ++ [AdapterCall this DefineForeignKey xs
                           (Some (ForeignKeyDone this cn key))]))).
      { intros xs. unfold adapter_call. rewrite Hs, bind_eq. unfold emit.
        cbn [answer invoke]. rewrite He.
        rewrite bind_eq, (properties_of_eq _ _ d _ ltd (VObj lp)) by done.
        rewrite bind_eq, literal_eq. sim.
        by rewrite set_member_obj. }
      rewrite bind_eq. destruct (arity a =? 4); by rewrite Hcb. }
  destruct Hinstall as (kt & tr & Hinstall). cbn zeta in Hinstall.
  set (h1 := assign (objects w ++ [Obj None [("type", data kt)]]) lp key
               (VObj (length (objects w)))) in *.
  destruct (register_tail this cn key (MkWorld h1 (sources w) (pending w) tr))
    as [Ho Hs].
  rewrite <- Hinstall in Ho, Hs. fold w1 in Ho, Hs. cbn in Ho, Hs.
  assert (Hread : read (objects w1) lp key = VObj (length (objects w))).
  { rewrite Ho. unfold h1.
    eapply read_assign_plain; [by apply lookup_app_l_Some|done]. }
  split; [by rewrite Hread|].
  apply Hnoop.
  - by rewrite Hs.
  - rewrite Ho. unfold h1. rewrite own_value_assign_other by (by left).
    by apply own_value_app.
  - rewrite Ho. unfold h1. rewrite own_value_assign_other by (by left).
    by apply own_value_app.
  - by rewrite Hread.
Qed.

Lemma defineForeignKey_second_call_is_noop_witness :
  let w := with_type_A quick_keys in
  let w1 := final (defineForeignKey 0 "A" "bId" (VStr "B") w) in
  (truthy (read (objects w) 2 "bId") = true →
   defineForeignKey 0 "A" "bId" (VStr "B") w = Ok tt w)
  ∧ truthy (read (objects w1) 2 "bId") = true
  ∧ defineForeignKey 0 "A" "bId" (VStr "B") w1 = Ok tt w1.
Proof.
  exact (defineForeignKey_second_call_is_noop (with_type_A quick_keys) 0
           (MkDataSource (VStr "keys") VUndef true false (Some quick_keys) 0 1
              false None true false)
           quick_keys "A" "bId" (VStr "B") 6 2 []
           eq_refl eq_refl eq_refl eq_refl
           ltac:(discriminate) ltac:(discriminate) eq_refl eq_refl
           (or_intror (ex_intro _ [VNull; VFun "String"] (conj eq_refl eq_refl)))).
Defined.

(** C7, counterexample to the claim as stated: the backend resolves the
    key type on a later tick; [defineForeignKey] called twice for
    [(A, bId)] asks the backend twice, and after the second call the field
    is still absent. *)
Lemma defineForeignKey_resolves_twice :
  let w2 := final ((defineForeignKey 0 "A" "bId" (VStr "B");;
                    defineForeignKey 0 "A" "bId" (VStr "B"))
                     (with_type_A slow_keys)) in
  trace w2
  = trace (with_type_A slow_keys)
    ++ [AdapterCall 0 DefineForeignKey [VStr "A"; VStr "bId"]
          (Some (ForeignKeyDone 0 "A" "bId"));
        Registered 4 "bId";
        AdapterCall 0 DefineForeignKey [VStr "A"; VStr "bId"]
          (Some (ForeignKeyDone 0 "A" "bId"));
        Registered 4 "bId"]
  ∧ own_value (objects w2) 1 "A" = Some (VObj 6)
  ∧ own_value (objects w2) 6 "properties" = Some (VObj 2)
  ∧ read (objects w2) 2 "bId" = VUndef.
Proof. cbn zeta. split; [|split; [|split]]; vm_compute; reflexivity. Qed.

(** ** Invariants of the heap *)

Section Keeps.
Variable I : heap → Prop.
Hypothesis I_assign : ∀ h l k v, I h → I (assign h l k v).
Hypothesis I_app : ∀ h o, I h → I (h ++ [o]).
Local Abbreviation keeps := (keeps I).

Lemma keeps_ret {A} (a : A) : keeps (mret a).
Proof. by intros w. Qed.

Lemma keeps_throw {A} e : keeps (@throw A e).
Proof. by intros w. Qed.

Lemma keeps_bind {A B} (m : M A) (f : A → M B) :
  keeps m → (∀ a, keeps (f a)) → keeps (m ≫= f).
Proof.
  intros Hm Hf w HI. rewrite bind_eq. specialize (Hm w HI).
  destruct (m w) as [a w1|e w1]; [by apply Hf|done].
Qed.

Lemma keeps_member v k : keeps (member v k).
Proof. intros w HI. by rewrite member_pure. Qed.

Lemma keeps_has_member v k : keeps (has_member v k).
Proof. intros w HI. by destruct v. Qed.

Lemma keeps_source this : keeps (source this).
Proof. intros w HI. unfold source. by destruct (sources w !! this). Qed.

Lemma keeps_the_adapter this : keeps (the_adapter this).
Proof.
  apply keeps_bind; [apply keeps_source|].
  intros d. destruct (adapter d); [apply keeps_ret|apply keeps_throw].
Qed.

Lemma keeps_emit e : keeps (emit e).
Proof. by intros w. Qed.

Lemma keeps_set_member v k x : keeps (set_member v k x).
Proof. intros w HI. destruct v; try done. by apply I_assign. Qed.

Lemma keeps_literal fields : keeps (literal fields).
Proof. intros w HI. by apply I_app. Qed.

Lemma keeps_adapter_call this a o args : keeps (adapter_call this a o args None).
Proof.
  unfold adapter_call. destruct (supports a o) as [r|]; [|apply keeps_throw].
  apply keeps_bind; [apply keeps_emit|]. intros _.
  destruct r; apply keeps_ret.
Qed.
End Keeps.

Lemma keys_store k p ps :
  keys (store k p ps) = if mem k (keys ps) then keys ps else keys ps ++ [k].
Proof.
  unfold keys, mem. induction ps as [|[k' p'] ps IH]; cbn; [done|].
  destruct (String.eqb_spec k k') as [->|Hne]; cbn; [done|].
  rewrite IH. by destruct (existsb (String.eqb k) (map fst ps)).
Qed.

Lemma mem_elem_of k ks : mem k ks = true ↔ k ∈ ks.
Proof.
  unfold mem. rewrite existsb_exists. setoid_rewrite <- list_elem_of_In.
  split.
  - by intros (x & Hx & ->%String.eqb_eq).
  - intros Hk. exists k. by rewrite String.eqb_refl.
Qed.

Lemma NoDup_keys_store k p ps : NoDup (keys ps) → NoDup (keys (store k p ps)).
Proof.
  intros Hnd. rewrite keys_store. destruct (mem k (keys ps)) eqn:E; [done|].
  apply NoDup_app. split; [done|]. split; [|apply NoDup_singleton].
  intros x Hx ->%list_elem_of_singleton.
  apply mem_elem_of in Hx. congruence.
Qed.

Lemma hidden_at_assign l k v h l' k' x :
  hidden_at l k v h → hidden_at l k v (assign h l' k' x).
Proof.
  intros (o & Hl & Hnd & Hk).
  destruct (decide (l' = l)) as [->|Hne];
    [|exists o; by rewrite lookup_assign_ne].
  unfold assign. rewrite Hl.
  destruct (decide (k' = k)) as [->|Hk'].
  - rewrite (lookup_chain_own _ _ _ _ _ Hl Hk). cbn. by exists o.
  - assert (Hin : ∀ p, hidden_at l k v
              (<[l := Obj (o_proto o) (store k' p (o_props o))]> h)).
    { intros p. eexists. split; [|split].
      - apply list_lookup_insert_eq. by eapply lookup_lt_Some.
      - cbn. by apply NoDup_keys_store.
      - cbn. by rewrite own_store_ne. }
    repeat case_match; first [apply Hin | by exists o].
Qed.

Lemma hidden_at_app l k v h x :
  hidden_at l k v h → hidden_at l k v (h ++ [x]).
Proof.
  intros (o & Hl & Hk). exists o. split; [by apply lookup_app_l_Some|done].
Qed.

(** A hidden property cannot be assigned. *)
Lemma hidden_at_read_only l k v h x :
  hidden_at l k v h → assign h l k x = h.
Proof.
  intros (o & Hl & _ & Hk). unfold assign.
  by rewrite Hl, (lookup_chain_own _ _ _ _ _ Hl Hk).
Qed.

Lemma hidden_at_read l k v h : hidden_at l k v h → read h l k = v.
Proof.
  intros (o & Hl & _ & Hk). apply read_own, own_value_Some.
  by exists o, (Prop_ v false false false).
Qed.

Lemma own_first k p (ps : props) :
  own k ps = Some p → (k, p) ∈ ps.
Proof.
  induction ps as [|[k' p'] ps IH]; cbn; [done|].
  destruct (String.eqb_spec k k') as [->|Hne].
  - intros [= ->]. apply list_elem_of_here.
  - intros H1%IH. by apply list_elem_of_further.
Qed.

Lemma NoDup_keys_unique k p q (ps : props) :
  NoDup (keys ps) → (k, p) ∈ ps → (k, q) ∈ ps → p = q.
Proof.
  induction ps as [|[k0 p0] ps IH]; intros Hnd Hp Hq.
  { by apply elem_of_nil in Hp. }
  cbn in Hnd. apply NoDup_cons in Hnd as [Hnot Hnd].
  assert (Hkey : ∀ r, (k0, r) ∈ ps → False).
  { intros r Hr. apply Hnot. apply list_elem_of_fmap. by exists (k0, r). }
  apply elem_of_cons in Hp as [Hp|Hp];
    apply elem_of_cons in Hq as [Hq|Hq].
  - congruence.
  - injection Hp as -> ->. by destruct (Hkey q).
  - injection Hq as -> ->. by destruct (Hkey p).
  - by apply IH.
Qed.

(** A property that is not enumerable is listed by no enumeration of the
    own properties. *)
Lemma not_enumerable_not_listed k p (ps : props) (Q : string * prop → bool) :
  NoDup (keys ps) → own k ps = Some p → p_enumerable p = false →
  (∀ kp, Q kp = true → p_enumerable kp.2 = true) →
  k ∉ keys (filter (λ kp, Q kp) ps).
Proof.
  intros Hnd Hk He HQ. unfold keys.
  intros ((k' & q) & -> & Hin)%list_elem_of_fmap.
  apply list_elem_of_filter in Hin as [Hq Hin]. cbn in *.
  apply own_first in Hk.
  assert (q = p) as -> by by eapply NoDup_keys_unique.
  apply Is_true_true, HQ in Hq. cbn in Hq. congruence.
Qed.

(** A key seen on the way down the prototype chain is not enumerated. *)
Lemma for_in_from_seen fuel h l seen k :
  k ∈ seen → k ∉ for_in_from fuel h l seen.
Proof.
  revert l seen. induction fuel as [|fuel IH]; intros l seen Hk; cbn.
  { apply not_elem_of_nil. }
  destruct (h !! l) as [o|]; [|apply not_elem_of_nil].
  rewrite elem_of_app. intros [Hown|Hup].
  - unfold keys in Hown.
    apply list_elem_of_fmap in Hown as ((k' & q) & -> & Hin).
    apply list_elem_of_filter in Hin as [Hq _]. cbn in Hq.
    apply Is_true_true, andb_prop in Hq as [_ Hn].
    apply negb_true_iff in Hn. cbn in Hk. apply mem_elem_of in Hk. congruence.
  - destruct (o_proto o) as [l'|]; [|by apply elem_of_nil in Hup].
    revert Hup. apply IH. apply elem_of_app. by left.
Qed.

(** A hidden property is enumerated neither by [for (k in o)] nor by
    [Object.keys(o)]. *)
Lemma hidden_at_not_enumerated l k v h :
  hidden_at l k v h → (k ∉ for_in h l) ∧ (k ∉ object_keys h l).
Proof.
  intros (o & Hl & Hnd & Hk). split.
  - unfold for_in. cbn. rewrite Hl. rewrite elem_of_app. intros [H|H].
    + revert H.
      apply (not_enumerable_not_listed k _ _
               (λ kp, p_enumerable kp.2 && negb (mem kp.1 [])) Hnd Hk eq_refl).
      by intros kp [? _]%andb_prop.
    + destruct (o_proto o) as [l'|]; [|by apply elem_of_nil in H].
      revert H. apply for_in_from_seen. cbn.
      apply own_first in Hk. apply list_elem_of_fmap.
      by eexists (k, _).
  - unfold object_keys. rewrite Hl.
    by apply (not_enumerable_not_listed k _ _ (λ kp, p_enumerable kp.2) Hnd Hk eq_refl).
Qed.

(** ** [copyModel] *)

Lemma copyModel_store_keeps (I : heap → Prop) this className Slave md :
  (∀ h l k v, I h → I (assign h l k v)) →
  (∀ h o, I h → I (h ++ [o])) →
  keeps I (copyModel_store this className Slave md).
Proof.
  intros Hassign Happ. unfold copyModel_store.
  apply keeps_bind; [apply keeps_member|]. intros ms.
  apply keeps_bind; [apply keeps_has_member|]. intros present.
  apply keeps_bind; [|intros; apply keeps_ret].
  destruct present; [apply keeps_ret|].
  apply keeps_bind; [by apply keeps_set_member|]. intros _.
  apply keeps_bind; [apply keeps_member|]. intros defs.
  apply keeps_bind; [apply keeps_member|]. intros ps.
  apply keeps_bind; [apply keeps_member|]. intros st.
  apply keeps_bind; [by apply keeps_literal|]. intros td.
  apply keeps_bind; [by apply keeps_set_member|]. intros _.
  apply keeps_bind; [apply keeps_source|]. intros d.
  destruct (isTransaction d); [apply keeps_ret|].
  apply keeps_bind; [apply keeps_the_adapter|]. intros a.
  apply keeps_bind; [apply keeps_member|]. intros ps'.
  apply keeps_bind; [apply keeps_member|]. intros st'.
  apply keeps_bind; [by apply keeps_literal|]. intros o.
  apply keeps_adapter_call.
Qed.

Lemma copyModel_store_result this className Slave md w T w' :
  copyModel_store this className Slave md w = Ok T w' → T = Slave.
Proof.
  unfold copyModel_store. rewrite bind_eq.
  destruct (member _ _ w) as [ms w1|]; [|done]. rewrite bind_eq.
  destruct (has_member _ _ w1) as [present w2|]; [|done]. rewrite bind_eq.
  match goal with |- context [match ?m w2 with _ => _ end] =>
    destruct (m w2) as [u w3|] end; [|done].
  by intros [= <- _].
Qed.

(** Up to its last part, [copyModel] reads the master type, creates the
    new constructor and gives it its identity facts. *)
Lemma copyModel_eq this Master w T w' :
  copyModel this Master w = Ok T w' →
  ∃ cn md rel,
    member Master "modelName" w = Ok cn w
    ∧ copyModel_store this (to_key cn) (VObj (length (objects w))) md
        (MkWorld (objects w
                  ++ [Slave_obj (match Master with VObj lm => Some lm | _ => None end)
                        Master this cn rel])
           (sources w) (pending w) (trace w))
      = Ok T w'.
Proof.
  unfold copyModel. intros H.
  rewrite bind_eq in H.
  pose proof (member_pure Master "modelName" w) as E.
  destruct (member Master "modelName" w) as [cn w0|]; [|done].
  cbn in E; subst w0. rewrite bind_eq in H.
  pose proof (member_pure Master "schema" w) as E.
  destruct (member Master "schema" w) as [sch w0|]; [|done].
  cbn in E; subst w0. rewrite bind_eq in H.
  pose proof (member_pure sch "definitions" w) as E.
  destruct (member sch "definitions" w) as [mdefs w0|]; [|done].
  cbn in E; subst w0. rewrite bind_eq in H.
  pose proof (member_pure mdefs (to_key cn) w) as E.
  destruct (member mdefs (to_key cn) w) as [md w0|]; [|done].
  cbn in E; subst w0.
  rewrite bind_eq, alloc_eq in H.
  rewrite bind_eq, set_member_obj in H. cbn [objects sources pending trace] in H.
  erewrite assign_new in H; [|apply lookup_fresh|done].
  rewrite insert_fresh in H. cbn [app] in H.
  rewrite bind_eq in H.
  set (proto := match Master with VObj lm => Some lm | _ => None end).
  assert (Hproto : ∀ ps,
    set_proto (length (objects w)) Master
      (MkWorld (objects w ++ [Obj None ps]) (sources w) (pending w) (trace w))
    = Ok tt (MkWorld (objects w ++ [Obj proto ps]) (sources w) (pending w)
               (trace w))).
  { intros ps. destruct Master; try reflexivity.
    erewrite set_proto_obj by (sim; apply lookup_fresh).
    sim. by rewrite insert_fresh. }
  rewrite Hproto in H. clear Hproto.
  unfold hiddenProperty in H.
  do 2 (rewrite bind_eq in H;
        erewrite defineProperty_new in H; [|sim; apply lookup_fresh|reflexivity];
        cbn [objects sources pending trace] in H;
        rewrite insert_fresh in H; cbn [o_proto o_props app] in H).
  rewrite bind_eq in H.
  match type of H with context [member Master "relations" ?w1] =>
    pose proof (member_pure Master "relations" w1) as E;
    destruct (member Master "relations" w1) as [rel w0|]; [|done]
  end.
  cbn in E; subst w0.
  rewrite bind_eq in H.
  erewrite defineProperty_new in H; [|sim; apply lookup_fresh|reflexivity].
  cbn [objects sources pending trace] in H.
  rewrite insert_fresh in H. cbn [o_proto o_props app] in H.
  exists cn, md, rel. split; [done|]. exact H.
Qed.

(** C9: the type that [copyModel] returns carries [schema] (the registry
    that received the copy), [modelName] and [relations] (those of the
    master type) as own properties that are read-only, not enumerable and
    not configurable: an assignment to any of the three changes nothing,
    and none of them is listed by [for (k in Slave)] or
    [Object.keys(Slave)]. *)
Theorem copyModel_identity_is_hidden this Master w T w' :
  copyModel this Master w = Ok T w' →
  ∃ l cn rel,
    T = VObj l
    ∧ member Master "modelName" w = Ok cn w
    ∧ ∀ k v,
        (k, v) ∈ [("schema", VSource this); ("modelName", cn); ("relations", rel)] →
        hidden_at l k v (objects w')
        ∧ read (objects w') l k = v
        ∧ (∀ x, assign (objects w') l k x = objects w')
        ∧ (k ∉ for_in (objects w') l)
        ∧ (k ∉ object_keys (objects w') l).
Proof.
  intros (cn & md & rel & Hcn & Hstore)%copyModel_eq.
  exists (length (objects w)), cn, rel.
  split; [by eapply copyModel_store_result|]. split; [done|].
  intros k v Hk.
  assert (Hh : hidden_at (length (objects w)) k v (objects w')).
  { pose proof (copyModel_store_keeps (hidden_at (length (objects w)) k v)
                  this (to_key cn) (VObj (length (objects w))) md
                  (λ h l' k' x, hidden_at_assign _ k v h l' k' x)
                  (λ h o, hidden_at_app _ k v h o)) as Hkeeps.
    match type of Hstore with ?m ?w1 = _ => specialize (Hkeeps w1) end.
    rewrite Hstore in Hkeeps.
    apply Hkeeps. cbn [objects]. eexists. split; [apply lookup_fresh|].
    split; [by apply (bool_decide_unpack _)|].
    repeat (apply elem_of_cons in Hk as [[= -> ->]|Hk]; [reflexivity|]).
    by apply elem_of_nil in Hk. }
  split; [done|]. split; [by apply hidden_at_read|].
  split; [intros x; by eapply hidden_at_read_only|].
  by eapply hidden_at_not_enumerated.
Qed.

Lemma copyModel_identity_is_hidden_witness :
  ∃ l cn rel,
    VObj 8 = VObj l
    ∧ member (VObj 4) "modelName" (with_type_A stub) = Ok cn (with_type_A stub)
    ∧ ∀ k v,
        (k, v) ∈ [("schema", VSource 0); ("modelName", cn); ("relations", rel)] →
        let h' := objects (final (copyModel 0 (VObj 4) (with_type_A stub))) in
        hidden_at l k v h'
        ∧ read h' l k = v
        ∧ (∀ x, assign h' l k x = h')
        ∧ (k ∉ for_in h' l)
        ∧ (k ∉ object_keys h' l).
Proof.
  apply (copyModel_identity_is_hidden 0 (VObj 4) (with_type_A stub) (VObj 8)
           (final (copyModel 0 (VObj 4) (with_type_A stub)))).
  vm_compute. reflexivity.
Defined.

(** ** Well-formed registries *)

Lemma own_keys k p (ps : props) :
  NoDup (keys ps) → (k, p) ∈ ps → own k ps = Some p.
Proof.
  induction ps as [|[k0 p0] ps IH]; intros Hnd Hin.
  { by apply elem_of_nil in Hin. }
  cbn in Hnd. apply NoDup_cons in Hnd as [Hnot Hnd]. cbn.
  apply elem_of_cons in Hin as [[= -> ->]|Hin].
  - by rewrite String.eqb_refl.
  - destruct (String.eqb_spec k k0) as [->|_]; [|by apply IH].
    destruct Hnot. apply list_elem_of_fmap. by exists (k0, p).
Qed.

Lemma is_model_declared h this d i m :
  is_model h this (definitions d) i m = true →
  ∃ lm ltd rel P St,
    m = VObj lm
    ∧ own_value h lm "modelName" = Some (VStr i)
    ∧ own_value h lm "schema" = Some (VSource this)
    ∧ own_value h lm "relations" = Some rel
    ∧ own_value h (definitions d) i = Some (VObj ltd)
    ∧ own_value h ltd "properties" = Some P
    ∧ own_value h ltd "settings" = Some St.
Proof.
  unfold is_model. destruct m as [| | | | |lm| |]; try done.
  destruct (own_value h lm "modelName") as [[| | | |n| | |]|] eqn:E1; try done.
  destruct (own_value h lm "schema") as [[| | | | | |s|]|] eqn:E2; try done.
  destruct (own_value h lm "relations") as [rel|] eqn:E3; try done.
  destruct (own_value h (definitions d) i) as [[| | | | |ltd| |]|] eqn:E4;
    try done.
  intros [[[Hn Hs]%andb_prop HP]%andb_prop HS]%andb_prop.
  apply String.eqb_eq in Hn as ->. apply Nat.eqb_eq in Hs as ->.
  apply bool_decide_eq_true in HP as [P HP], HS as [St HS].
  by exists lm, ltd, rel, P, St.
Qed.

Lemma registry_ok_spec w this :
  registry_ok w this = true →
  ∃ d ps,
    sources w !! this = Some d
    ∧ objects w !! models d = Some (Obj None ps)
    ∧ is_Some (objects w !! definitions d)
    ∧ NoDup (keys ps)
    ∧ Forall (λ kp, p_enumerable kp.2 = true) ps
    ∧ ∀ i, i ∈ keys ps → declared (objects w) this d i.
Proof.
  unfold registry_ok. destruct (sources w !! this) as [d|]; [|done].
  destruct (objects w !! models d) as [[[|] ps]|] eqn:Hm; try done.
  destruct (objects w !! definitions d) as [od|] eqn:Hdefs; [|done].
  intros [Hnd Hall]%andb_prop. apply bool_decide_eq_true in Hnd.
  rewrite forallb_forall in Hall. setoid_rewrite <- list_elem_of_In in Hall.
  exists d, ps. split; [done|]. split; [done|]. split; [by eexists|].
  split; [done|]. split.
  - apply Forall_forall. intros kp Hin. by apply Hall, andb_prop in Hin as [? _].
  - intros i ((k & p) & -> & Hin)%list_elem_of_fmap.
    pose proof (Hall _ Hin) as [_ Hmodel]%andb_prop. cbn in *.
    apply is_model_declared in Hmodel
      as (lm & ltd & rel & P & St & Hv & H1 & H2 & H3 & H4 & H5 & H6).
    exists lm, ltd, rel, P, St. repeat split; try done.
    apply own_value_Some. exists (Obj None ps), p.
    split; [done|]. split; [by apply own_keys|done].
Qed.

(** In a plain object whose properties are all enumerable, [for (k in o)]
    visits the own keys, in order. *)
Lemma for_in_plain h l ps :
  h !! l = Some (Obj None ps) →
  Forall (λ kp, p_enumerable kp.2 = true) ps →
  for_in h l = keys ps.
Proof.
  intros Hl Hall. unfold for_in. cbn. rewrite Hl. cbn. rewrite app_nil_r.
  f_equal. clear Hl. induction Hall as [|kp ps Hkp Hall IH]; [done|].
  rewrite filter_cons_True by (cbn; by rewrite Hkp). by rewrite IH.
Qed.

Lemma own_value_eq_lookup h h' l k :
  h' !! l = h !! l → own_value h' l k = own_value h l k.
Proof. unfold own_value. by intros ->. Qed.

Lemma own_value_frame L h0 h l k v :
  frame L h0 h → l ∉ L → own_value h0 l k = Some v → own_value h l k = Some v.
Proof.
  intros [_ Hf] Hn Hv. rewrite <- Hv. apply own_value_eq_lookup, Hf; [|done].
  apply own_value_Some in Hv as (o & _ & Hl & _). by eapply lookup_lt_Some.
Qed.

(** ** [transaction] *)

Lemma own_value_insert_ne (h : heap) l o l' k :
  l ≠ l' → own_value (<[l := o]> h) l' k = own_value h l' k.
Proof. intros Hne. apply own_value_eq_lookup. by apply list_lookup_insert_ne. Qed.

(** [copyModel] of a master type whose identity facts are its own. *)
Lemma copyModel_obj this lm w cn s ds rel :
  own_value (objects w) lm "modelName" = Some cn →
  own_value (objects w) lm "schema" = Some (VSource s) →
  sources w !! s = Some ds →
  own_value (objects w) lm "relations" = Some rel →
  copyModel this (VObj lm) w
  = copyModel_store this (to_key cn) (VObj (length (objects w)))
      (read (objects w) (definitions ds) (to_key cn))
      (MkWorld (objects w ++ [Slave_obj (Some lm) (VObj lm) this cn rel])
         (sources w) (pending w) (trace w)).
Proof.
  intros Hcn Hsch Hds Hrel. unfold copyModel.
  rewrite bind_eq, member_obj, (read_own _ _ _ _ Hcn).
  rewrite bind_eq, member_obj, (read_own _ _ _ _ Hsch).
  rewrite bind_eq, (member_definitions _ ds) by done.
  rewrite bind_eq, member_obj.
  rewrite bind_eq, alloc_eq. sim.
  rewrite bind_eq, set_member_obj. sim.
  erewrite assign_new; [|apply lookup_fresh|done].
  rewrite insert_fresh. cbn [app].
  rewrite bind_eq. erewrite set_proto_obj by (sim; apply lookup_fresh).
  sim. rewrite insert_fresh. cbn [o_props].
  unfold hiddenProperty.
  do 2 (rewrite bind_eq;
        erewrite defineProperty_new; [|sim; apply lookup_fresh|reflexivity];
        sim; rewrite insert_fresh; cbn [o_proto o_props app]).
  rewrite bind_eq, member_obj. sim.
  rewrite (read_own (_ ++ _) lm "relations" rel) by (by apply own_value_app).
  rewrite bind_eq.
  erewrite defineProperty_new; [|sim; apply lookup_fresh|reflexivity].
  sim. rewrite insert_fresh. cbn [o_proto o_props app].
  reflexivity.
Qed.

(** The store of a copy in the registries of a transaction context. *)
Lemma copyModel_store_transaction t T i Slave ltd P St H ss pend tr mp dp :
  ss !! t = Some T → isTransaction T = true →
  H !! models T = Some (Obj None mp) → own i mp = None →
  H !! definitions T = Some (Obj None dp) → own i dp = None →
  models T ≠ definitions T → models T ≠ ltd →
  own_value H ltd "properties" = Some P →
  own_value H ltd "settings" = Some St →
  copyModel_store t i Slave (VObj ltd) (MkWorld H ss pend tr)
  = Ok Slave
      (MkWorld
         (<[definitions T := Obj None (dp ++ [(i, data (VObj (length H)))])]>
            (<[models T := Obj None (mp ++ [(i, data Slave)])]> H
             ++ [Obj None [("properties", data P); ("settings", data St)]]))
         ss pend tr).
Proof.
  intros HT Htx Hm Hmi Hd Hdi Hne Hne' HP HSt. unfold copyModel_store.
  rewrite bind_eq, (member_models _ T) by done.
  rewrite bind_eq, has_member_obj. sim.
  unfold has. rewrite (lookup_chain_plain _ _ _ _ Hm eq_refl). cbn [o_props].
  rewrite Hmi.
  rewrite !bind_eq, set_member_obj. sim.
  rewrite (assign_new _ _ _ _ _ Hm Hmi).
  rewrite bind_eq, (member_definitions _ T) by done.
  rewrite bind_eq, member_obj. sim.
  rewrite (read_own _ _ _ P) by (by rewrite own_value_insert_ne).
  rewrite bind_eq, member_obj. sim.
  rewrite (read_own _ _ _ St) by (by rewrite own_value_insert_ne).
  rewrite bind_eq, literal_eq. sim. cbn [map fst snd].
  rewrite bind_eq, set_member_obj. sim.
  erewrite assign_new;
    [|apply lookup_app_l_Some; rewrite list_lookup_insert_ne by done; exact Hd
     |done].
  rewrite bind_eq, (source_eq _ _ T) by done. rewrite Htx.
  norm. reflexivity.
Qed.

Lemma keys_app (ps qs : props) : keys (ps ++ qs) = keys ps ++ keys qs.
Proof. unfold keys. apply map_app. Qed.

(** One more type is copied: the invariant of the copy goes on. *)
Lemma copying_step h0 defs0 done H i mp dp Slave ltd P St :
  copying h0 defs0 done H →
  H !! length h0 = Some (Obj None mp) →
  H !! S (length h0) = Some (Obj None dp) →
  i ∉ done →
  own_value h0 defs0 i = Some (VObj ltd) →
  own_value h0 ltd "properties" = Some P →
  own_value h0 ltd "settings" = Some St →
  copying h0 defs0 (done ++ [i])
    (<[S (length h0) := Obj None (dp ++ [(i, data (VObj (S (length H))))])]>
       (<[length h0 := Obj None (mp ++ [(i, data (VObj (length H)))])]>
          (H ++ [Slave])
        ++ [Obj None [("properties", data P); ("settings", data St)]])).
Proof.
  intros (Hf & (mp' & Hm' & Hmk & Hme) & (dp' & Hd' & Hdk & Hde) & Hc)
         Hm Hd Hi Htd HP HSt.
  rewrite Hm in Hm'. injection Hm' as <-.
  rewrite Hd in Hd'. injection Hd' as <-.
  set (n0 := length h0) in *.
  assert (Hn0 : S n0 < length H) by (by eapply lookup_lt_Some).
  set (X := <[n0 := Obj None (mp ++ [(i, data (VObj (length H)))])]> (H ++ [Slave])).
  assert (HX : length X = S (length H)).
  { unfold X. rewrite length_insert, length_app. cbn. lia. }
  set (td := Obj None [("properties", data P); ("settings", data St)]).
  set (D' := Obj None (dp ++ [(i, data (VObj (S (length H))))])).
  assert (Hold : ∀ l, l < length H → l ≠ n0 → l ≠ S n0 →
                      (<[S n0 := D']> (X ++ [td])) !! l = H !! l).
  { intros l Hl H1 H2. rewrite list_lookup_insert_ne by done.
    rewrite lookup_app_l by lia. unfold X.
    rewrite list_lookup_insert_ne by done. by rewrite lookup_app_l. }
  assert (Hnew : (<[S n0 := D']> (X ++ [td])) !! S (length H) = Some td).
  { rewrite list_lookup_insert_ne by lia. rewrite <- HX. apply lookup_fresh. }
  assert (HD : (<[S n0 := D']> (X ++ [td])) !! S n0 = Some D').
  { apply list_lookup_insert_eq. rewrite length_app. lia. }
  split; [|split; [|split]].
  - apply frame_insert; [|right; lia]. apply frame_app.
    apply frame_insert; [|right; lia]. by apply frame_app.
  - exists (mp ++ [(i, data (VObj (length H)))]). split; [|split].
    + rewrite list_lookup_insert_ne by lia. rewrite lookup_app_l by lia.
      apply list_lookup_insert_eq. rewrite length_app. lia.
    + rewrite keys_app. by rewrite Hmk.
    + apply Forall_app. split; [done|]. by apply Forall_singleton.
  - exists (dp ++ [(i, data (VObj (S (length H))))]). split; [done|]. split.
    + rewrite keys_app. by rewrite Hdk.
    + apply Forall_app. split; [done|]. by apply Forall_singleton.
  - assert (Hdi : own i dp = None) by (apply own_absent_keys; by rewrite Hdk).
    intros j [Hj| ->%list_elem_of_singleton]%elem_of_app.
    + destruct (Hc j Hj)
        as (ltdj & ltdj' & Pj & Stj & H1 & H2 & H3 & H4 & H5 & H6 & H7 & H8).
      exists ltdj, ltdj', Pj, Stj. repeat (split; [done|]).
      assert (Hlt : ltdj' < length H).
      { apply own_value_Some in H7 as (o & _ & Hl & _). by eapply lookup_lt_Some. }
      split; [|split; [done|split; [done|split]]].
      * apply own_value_Some in H4 as (o & p & Ho & Hp & Hv).
        rewrite Hd in Ho. injection Ho as <-. cbn in Hp.
        apply own_value_Some. exists D', p. split; [done|]. split; [|done].
        cbn. rewrite own_app_absent by done.
        destruct (String.eqb_spec j i) as [->|_]; [done|done].
      * rewrite <- H7. apply own_value_eq_lookup, Hold; lia.
      * rewrite <- H8. apply own_value_eq_lookup, Hold; lia.
    + exists ltd, (S (length H)), P, St. repeat (split; [done|]).
      split; [|split; [lia|split; [lia|split]]].
      * apply own_value_Some. eexists D', _. split; [exact HD|].
        split; [cbn; rewrite own_app_absent by done;
                by rewrite String.eqb_refl|done].
      * apply own_value_Some. eexists td, _. split; [exact Hnew|].
        split; [reflexivity|done].
      * apply own_value_Some. eexists td, _. split; [exact Hnew|].
        split; [reflexivity|done].
Qed.

(** The body of the loop of [transaction], for one type name. *)
Lemma copy_one h0 this d t T ss pend tr done H i :
  ss !! this = Some d → t = length ss →
  isTransaction T = true →
  models T = length h0 → definitions T = S (length h0) →
  copying h0 (definitions d) done H →
  i ∉ done → declared h0 this d i →
  ∃ H',
    (smodels ← member (VSource this) "models";
     m ← member smodels i;
     copyModel t m;; ret tt) (MkWorld H (ss ++ [T]) pend tr)
    = Ok tt (MkWorld H' (ss ++ [T]) pend tr)
    ∧ copying h0 (definitions d) (done ++ [i]) H'.
Proof.
  intros Hd -> Htx HmT HdT Hinv Hi
         (lm & ltd & rel & P & St & Hlm & Hn & Hs & Hr & Htd & HP & HSt).
  pose proof Hinv as (Hf & (mp & Hm & Hmk & _) & (dp & Hdp & Hdk & _) & _).
  assert (Hup : ∀ l k v, own_value h0 l k = Some v → own_value H l k = Some v).
  { intros l k v. apply (own_value_frame [] h0 H); [done|apply not_elem_of_nil]. }
  assert (Hltd : ltd < length h0).
  { apply own_value_Some in HP as (o & _ & Hl & _). by eapply lookup_lt_Some. }
  assert (Hd' : (ss ++ [T]) !! this = Some d) by (by apply lookup_app_l_Some).
  eexists. split.
  - rewrite bind_eq, (member_models _ d) by done.
    rewrite bind_eq, member_obj. sim. rewrite (read_own _ _ _ _ (Hup _ _ _ Hlm)).
    rewrite bind_eq.
    rewrite (copyModel_obj _ lm _ (VStr i) this d rel) by (sim; auto).
    sim. cbn [to_key]. rewrite (read_own _ _ _ _ (Hup _ _ _ Htd)).
    erewrite (copyModel_store_transaction _ T i _ ltd P St _ _ _ _ mp dp);
      [reflexivity|apply lookup_fresh|done
      |rewrite HmT; by apply lookup_app_l_Some
      |apply own_absent_keys; by rewrite Hmk
      |rewrite HdT; by apply lookup_app_l_Some
      |apply own_absent_keys; by rewrite Hdk
      |lia|lia
      |by apply own_value_app, Hup
      |by apply own_value_app, Hup].
  - rewrite HmT, HdT. rewrite length_app. cbn [length].
    rewrite Nat.add_1_r.
    by apply (copying_step h0 _ done H i mp dp _ ltd P St).
Qed.

(** The loop of [transaction]. *)
Lemma copy_all h0 this d t T ss pend tr todo :
  ss !! this = Some d → t = length ss →
  isTransaction T = true →
  models T = length h0 → definitions T = S (length h0) →
  ∀ done H,
    copying h0 (definitions d) done H →
    NoDup (done ++ todo) →
    (∀ i, i ∈ todo → declared h0 this d i) →
    ∃ H',
      for_each todo
        (λ i, smodels ← member (VSource this) "models";
              m ← member smodels i;
              copyModel t m;; ret tt) (MkWorld H (ss ++ [T]) pend tr)
      = Ok tt (MkWorld H' (ss ++ [T]) pend tr)
      ∧ copying h0 (definitions d) (done ++ todo) H'.
Proof.
  intros Hd Ht Htx HmT HdT.
  induction todo as [|i todo IH]; intros done H Hinv Hnd Hdecl.
  - exists H. split; [done|]. by rewrite app_nil_r.
  - assert (Hi : i ∉ done).
    { apply NoDup_app in Hnd as (_ & Hdis & _). intros Hin.
      apply (Hdis i Hin). apply list_elem_of_here. }
    destruct (copy_one h0 this d t T ss pend tr done H i)
      as (H1 & Hrun & Hinv1); try done.
    { apply Hdecl, list_elem_of_here. }
    destruct (IH (done ++ [i]) H1) as (H' & Hrest & Hinv'); try done.
    { by rewrite <- app_assoc. }
    { intros j Hj. by apply Hdecl, list_elem_of_further. }
    exists H'. split.
    + cbn [for_each]. rewrite bind_eq, Hrun. exact Hrest.
    + by rewrite <- app_assoc in Hinv'.
Qed.


(** [transaction] on a well-formed registry, with an adapter that has a
    transaction factory. *)
Lemma transaction_eq w this d a ta :
  sources w !! this = Some d → adapter d = Some a → factory a = Some ta →
  registry_ok w this = true →
  ∃ H',
    transaction this w
    = Ok (length (sources w))
        (MkWorld H'
           (sources w ++ [context_of this d ta (length (objects w))])
           (pending w) (trace w ++ [TransactionCall this]))
    ∧ copying (objects w) (definitions d) (type_names w this) H'.
Proof.
  intros Hd Ha Hfac (d' & ps & Hd' & Hm & Hdefs & Hnd & Hen & Hdecl)%registry_ok_spec.
  rewrite Hd in Hd'. injection Hd' as <-.
  set (n0 := length (objects w)).
  set (T0 := MkDataSource (name d) (settings d) false false (Some ta) n0 (S n0)
               true (Some this) false true).
  assert (Hnames : type_names w this = keys ps).
  { unfold type_names. rewrite Hd. by apply for_in_plain. }
  destruct (copy_all (objects w) this d (length (sources w)) T0 (sources w)
              (pending w) (trace w ++ [TransactionCall this]) (keys ps)
              Hd eq_refl eq_refl eq_refl eq_refl []
              (objects w ++ [Obj None []; Obj None []]))
    as (H' & Hloop & Hinv); [| done | done |].
  { split; [by apply frame_app, frame_refl|].
    split; [exists []; split; [apply lookup_fresh|done]|].
    split; [|intros i Hi; by apply elem_of_nil in Hi].
    exists []. split; [|done].
    change (objects w ++ [Obj None []; Obj None []])
      with (objects w ++ [Obj None []] ++ [Obj None []]).
    rewrite app_assoc.
    replace (S (length (objects w))) with (length (objects w ++ [Obj None []]))
      by (rewrite length_app; cbn; lia).
    apply lookup_fresh. }
  exists H'. split; [|by rewrite Hnames].
  unfold transaction.
  rewrite bind_eq, (source_eq _ _ d) by done.
  rewrite bind_eq, (the_adapter_eq _ _ d a) by done.
  rewrite Hfac. rewrite bind_eq. unfold emit. sim.
  rewrite bind_eq, alloc_eq. sim.
  rewrite bind_eq, alloc_eq. sim.
  rewrite bind_eq. unfold new_source. sim. norm.
  rewrite <- app_assoc. cbn [app].
  rewrite bind_eq. unfold get_heap. sim.
  rewrite (for_in_plain _ _ ps);
    [|by apply lookup_app_l_Some|done].
  rewrite bind_eq. fold n0. fold T0. rewrite Hloop.
  rewrite bind_eq. erewrite update_eq by (sim; apply lookup_fresh).
  sim. by rewrite insert_fresh.
Qed.







(** ** Only a successful [connect] resets [connecting] *)

Lemma still_connecting_refl w : still_connecting w w.
Proof. intros this d Hd Hc. by exists d. Qed.

Lemma still_connecting_trans w1 w2 w3 :
  still_connecting w1 w2 → still_connecting w2 w3 → still_connecting w1 w3.
Proof.
  intros H12 H23 this d Hd Hc.
  destruct (H12 this d Hd Hc) as (d2 & Hd2 & Hc2). by apply (H23 this d2).
Qed.

Lemma still_connecting_sources w w' :
  sources w' = sources w → still_connecting w w'.
Proof. intros Hs this d Hd Hc. exists d. by rewrite Hs. Qed.

Lemma sticky_bind {A B} (m : M A) (f : A → M B) :
  sticky m → (∀ a, sticky (f a)) → sticky (m ≫= f).
Proof.
  intros Hm Hf w. rewrite bind_eq. specialize (Hm w).
  destruct (m w) as [a w1|e w1]; [|done].
  eapply still_connecting_trans; [exact Hm|apply Hf].
Qed.

Lemma sticky_ret {A} (a : A) : sticky (ret a).
Proof. intros w. apply still_connecting_refl. Qed.

Lemma sticky_throw {A} e : sticky (@throw A e).
Proof. intros w. apply still_connecting_refl. Qed.

Lemma sticky_emit e : sticky (emit e).
Proof. intros w. by apply still_connecting_sources. Qed.

Lemma sticky_defer c args : sticky (defer c args).
Proof. intros w. by apply still_connecting_sources. Qed.

Lemma sticky_alloc o : sticky (alloc o).
Proof. intros w. by apply still_connecting_sources. Qed.

Lemma sticky_literal fields : sticky (literal fields).
Proof. intros w. by apply still_connecting_sources. Qed.

Lemma sticky_get_heap : sticky get_heap.
Proof. intros w. by apply still_connecting_sources. Qed.

Lemma sticky_source this : sticky (source this).
Proof. intros w. unfold source. destruct (sources w !! this); apply still_connecting_refl. Qed.

Lemma sticky_member v k : sticky (member v k).
Proof. intros w. rewrite member_pure. apply still_connecting_refl. Qed.

Lemma sticky_set_member v k x : sticky (set_member v k x).
Proof. intros w. destruct v; by apply still_connecting_sources. Qed.

Lemma sticky_has_member v k : sticky (has_member v k).
Proof. intros w. destruct v; by apply still_connecting_sources. Qed.

Lemma sticky_defineProperty v k desc : sticky (Object_defineProperty v k desc).
Proof.
  intros w. apply still_connecting_sources.
  destruct v; try done. unfold Object_defineProperty, get_heap.
  rewrite bind_eq. repeat case_match; done.
Qed.

Lemma sticky_set_proto l p : sticky (set_proto l p).
Proof.
  intros w. apply still_connecting_sources.
  destruct p; try done. unfold set_proto, get_heap.
  rewrite bind_eq. repeat case_match; done.
Qed.

Lemma sticky_new_source d : sticky (new_source d).
Proof.
  intros w this d0 Hd Hc. exists d0. split; [|done].
  by apply lookup_app_l_Some.
Qed.

(** An update of a record that does not reset the flag. *)
Lemma sticky_update this f :
  (∀ d, connecting d = true → connecting (f d) = true) →
  sticky (update this f).
Proof.
  intros Hf w. unfold update.
  destruct (sources w !! this) as [d|] eqn:Hd; [|apply still_connecting_refl].
  intros that d0 Hd0 Hc. cbn.
  destruct (decide (this = that)) as [<-|Hne].
  - exists (f d). rewrite list_lookup_insert_eq by (by eapply lookup_lt_Some).
    split; [done|]. apply Hf. congruence.
  - exists d0. by rewrite list_lookup_insert_ne.
Qed.

Lemma sticky_the_adapter this : sticky (the_adapter this).
Proof.
  apply sticky_bind; [apply sticky_source|].
  intros d. destruct (adapter d); [apply sticky_ret|apply sticky_throw].
Qed.

Lemma sticky_for_each {A} (xs : list A) body :
  (∀ x, sticky (body x)) → sticky (for_each xs body).
Proof.
  intros Hb. induction xs as [|x xs IH]; [apply sticky_ret|].
  cbn. apply sticky_bind; [apply Hb|by intros _].
Qed.

Create HintDb sticky.
#[local] Hint Resolve sticky_ret sticky_throw sticky_emit sticky_defer
  sticky_alloc sticky_literal sticky_get_heap sticky_source sticky_member
  sticky_set_member sticky_has_member sticky_defineProperty sticky_set_proto
  sticky_new_source sticky_the_adapter : sticky.

(** The routine part of these proofs: a sequence is sticky when its parts
    are, a choice when its branches are. *)
Ltac sticky_step :=
  first
    [ apply sticky_bind; [|intros ?]
    | match goal with
      | |- sticky (if ?b then _ else _) => destruct b
      | |- sticky (match ?x with _ => _ end) => destruct x
      end
    | solve [eauto with sticky]
    | apply sticky_update; by intros [] ].

Ltac sticky_auto := repeat sticky_step.

Lemma sticky_properties_of this cn : sticky (properties_of this cn).
Proof. unfold properties_of. sticky_auto. Qed.

Lemma sticky_settings_of this t : sticky (settings_of this t).
Proof. unfold settings_of. sticky_auto. Qed.

Lemma sticky_hiddenProperty v k x : sticky (hiddenProperty v k x).
Proof. apply sticky_defineProperty. Qed.

#[local] Hint Resolve sticky_properties_of sticky_settings_of
  sticky_hiddenProperty : sticky.

(** The completions: only that of [connect], when it receives no error,
    sets [connecting] to false. *)
Lemma sticky_invoke c args : no_success c args = true → sticky (invoke c args).
Proof.
  intros Hc. destruct c as [id|s|s cb|t cn key]; cbn [invoke].
  - sticky_auto.
  - sticky_auto.
  - cbn in Hc. rewrite Hc. sticky_auto.
  - sticky_auto.
Qed.

Lemma sticky_answer_user r cb : sticky (answer r (UserCb <$> cb)).
Proof.
  destruct r, cb; cbn; eauto with sticky.
Qed.

Lemma sticky_adapter_call_user this a o args cb :
  sticky (adapter_call this a o args (UserCb <$> cb)).
Proof.
  unfold adapter_call. destruct (supports a o); [|apply sticky_throw].
  apply sticky_bind; [apply sticky_emit|]. intros _. apply sticky_answer_user.
Qed.

Lemma sticky_adapter_call_none this a o args :
  sticky (adapter_call this a o args None).
Proof. apply (sticky_adapter_call_user this a o args None). Qed.

Lemma sticky_adapter_call_keys this a args t cn key :
  sticky (adapter_call this a DefineForeignKey args
            (Some (ForeignKeyDone t cn key))).
Proof.
  unfold adapter_call. destruct (supports a DefineForeignKey) as [r|];
    [|apply sticky_throw].
  apply sticky_bind; [apply sticky_emit|]. intros _.
  destruct r; cbn [answer]; [by apply sticky_invoke|apply sticky_defer|apply sticky_ret].
Qed.

Lemma sticky_call_if cb args : sticky (call_if cb args).
Proof. destruct cb; cbn; eauto with sticky. Qed.

#[local] Hint Resolve sticky_adapter_call_user sticky_adapter_call_none
  sticky_adapter_call_keys sticky_call_if : sticky.

Lemma sticky_freeze this : sticky (freeze this).
Proof. unfold freeze. sticky_auto. Qed.

#[local] Hint Resolve sticky_freeze : sticky.

Lemma sticky_registerProperty m key : sticky (registerProperty m key).
Proof. unfold registerProperty. sticky_auto. Qed.

#[local] Hint Resolve sticky_registerProperty : sticky.

Lemma sticky_copyModel this Master : sticky (copyModel this Master).
Proof. unfold copyModel, copyModel_store. sticky_auto. Qed.

#[local] Hint Resolve sticky_copyModel : sticky.

(** No call of the interface other than [connect] resets [connecting]. *)
Lemma sticky_perform this c : sticky (perform this c).
Proof.
  destruct c as [dao cn P St|m p params|g args cb| | |t|cn key f|cb|m| |cb];
    cbn [perform].
  - unfold define, ADL_define.
    sticky_auto.
    apply sticky_for_each. intros kv. apply sticky_set_member.
  - unfold defineProperty, ADL_defineProperty. sticky_auto.
  - destruct g; cbn [run];
      unfold automigrate, autoupdate, isActual, discoverModels,
        discoverModelProperties, discoverPrimaryKeys, discoverForeignKeys;
      sticky_auto.
  - apply sticky_freeze.
  - apply sticky_emit.
  - unfold tableName. sticky_auto.
  - unfold defineForeignKey. sticky_auto.
  - unfold disconnect. sticky_auto.
  - sticky_auto.
  - unfold transaction. sticky_auto.
    apply sticky_for_each. intros i. sticky_auto.
  - unfold exec. sticky_auto.
Qed.

(** One tick of the event loop, when the completion that runs is not a
    successful one of [connect]. *)
Lemma sticky_tick w :
  match pending w with
  | (c, args) :: _ => no_success c args = true
  | [] => True
  end →
  still_connecting w (final (tick w)).
Proof.
  unfold tick. destruct (pending w) as [|[c args] rest].
  - intros _. apply still_connecting_refl.
  - intros Hc. eapply still_connecting_trans;
      [|apply (sticky_invoke c args Hc)].
    by apply still_connecting_sources.
Qed.

Lemma later_still_connecting w w' : later w w' → still_connecting w w'.
Proof.
  induction 1 as [|w' other c _ IH|w' _ IH Hp].
  - apply still_connecting_refl.
  - eapply still_connecting_trans; [exact IH|apply sticky_perform].
  - eapply still_connecting_trans; [exact IH|by apply sticky_tick].
Qed.

(** C10: when the adapter's connect reports an error, at once or on a
    later tick, the caller's completion receives that error, [connected]
    keeps the value it had, and [connecting], set to true on entry, is
    still true afterwards: the failing completion assigns no flag.  It
    stays true through whatever follows, calls of the other operations and
    completions alike, short of a later [connect] that succeeds. *)
Theorem failed_connect_stays_connecting w this d a cb r err rest :
  sources w !! this = Some d → has_connect d = true →
  adapter d = Some a → supports a Connect = Some r →
  r = Now (err :: rest) ∨ r = Later (err :: rest) →
  truthy err = true → pending w = [] →
  ∃ w', (connect this (Some cb);; tick) w = Ok tt w'
    ∧ sources w' = <[this := with_connecting true d]> (sources w)
    ∧ (∃ d', sources w' !! this = Some d'
             ∧ connected d' = connected d ∧ connecting d' = true)
    ∧ trace w' = trace w ++ [AdapterCall this Connect []
                               (Some (ConnectDone this (Some cb)));
                             Called cb [err]]
    ∧ ∀ w'', later w' w'' →
        ∃ d'', sources w'' !! this = Some d'' ∧ connecting d'' = true.
Proof.
  intros H Hc Ha Hs Hr He Hp.
  assert (Hl : (<[this := with_connecting true d]> (sources w)) !! this
               = Some (with_connecting true d)).
  { apply list_lookup_insert_eq. by eapply lookup_lt_Some. }
  assert (Hrun : ∀ k : M unit,
    (connect this (Some cb);; k) w
    = (answer r (Some (ConnectDone this (Some cb)));; k)
        (MkWorld (objects w) (<[this := with_connecting true d]> (sources w))
           (pending w)
           (trace w ++ [AdapterCall this Connect []
                          (Some (ConnectDone this (Some cb)))]))).
  { intros k. unfold connect.
    rewrite !bind_eq, (source_eq _ _ _ H), Hc. cbn [negb].
    rewrite bind_eq. unfold update at 1. rewrite H, bind_eq.
    erewrite the_adapter_eq; [|exact Hl|exact Ha].
    rewrite Hs. unfold adapter_call. rewrite Hs. reflexivity. }
  rewrite Hrun. clear Hrun.
  assert (Hend : ∀ w',
    sources w' = <[this := with_connecting true d]> (sources w) →
    (∃ d', sources w' !! this = Some d'
           ∧ connected d' = connected d ∧ connecting d' = true)
    ∧ ∀ w'', later w' w'' →
        ∃ d'', sources w'' !! this = Some d'' ∧ connecting d'' = true).
  { intros w' Hw'. split.
    - exists (with_connecting true d). by rewrite Hw', Hl.
    - intros w'' Hlater.
      apply (later_still_connecting _ _ Hlater this (with_connecting true d));
        [by rewrite Hw'|done]. }
  destruct Hr as [-> | ->]; cbn [answer]; rewrite bind_eq.
  - rewrite connect_done_error by done. cbn [objects sources pending trace arg].
    unfold tick. cbn [pending]. rewrite Hp.
    eexists. split; [reflexivity|]. cbn [sources trace].
    split; [done|].
    destruct (Hend (MkWorld (objects w)
                      (<[this := with_connecting true d]> (sources w)) []
                      ((trace w ++ [AdapterCall this Connect []
                                      (Some (ConnectDone this (Some cb)))])
                       ++ [Called cb [err]])) eq_refl) as [Hflags Hlater].
    split; [done|]. split; [by rewrite <- app_assoc|done].
  - unfold defer, tick. cbn [objects sources pending trace]. rewrite Hp.
    cbn [app]. rewrite connect_done_error by done.
    cbn [objects sources pending trace].
    eexists. split; [reflexivity|]. cbn [sources trace].
    split; [done|].
    destruct (Hend (MkWorld (objects w)
                      (<[this := with_connecting true d]> (sources w)) []
                      ((trace w ++ [AdapterCall this Connect []
                                      (Some (ConnectDone this (Some cb)))])
                       ++ [Called cb [arg 0 (err :: rest)]])) eq_refl)
      as [Hflags Hlater].
    split; [done|]. split; [by rewrite <- app_assoc|done].
Qed.

Lemma failed_connect_stays_connecting_witness :
  ∃ w', (connect 0 (Some 1);; tick) unreachable_world = Ok tt w'
    ∧ sources w'
      = <[0 := with_connecting true
                 (MkDataSource (VStr "unreachable") VUndef false false
                    (Some unreachable) 0 1 false None true false)]>
          (sources unreachable_world)
    ∧ (∃ d', sources w' !! 0 = Some d'
             ∧ connected d' = false ∧ connecting d' = true)
    ∧ trace w' = trace unreachable_world
                 ++ [AdapterCall 0 Connect []
                       (Some (ConnectDone 0 (Some 1)));
                     Called 1 [VStr "ECONNREFUSED"]]
    ∧ ∀ w'', later w' w'' →
        ∃ d'', sources w'' !! 0 = Some d'' ∧ connecting d'' = true.
Proof.
  exact (failed_connect_stays_connecting unreachable_world 0
           (MkDataSource (VStr "unreachable") VUndef false false
              (Some unreachable) 0 1 false None true false)
           unreachable 1 (Later [VStr "ECONNREFUSED"])
           (VStr "ECONNREFUSED") []
           eq_refl eq_refl eq_refl eq_refl (or_intror eq_refl) eq_refl eq_refl).
Defined.

(** * Further properties of lib/datasource.js *)

(** ** Construction *)

(** The constructor up to the resolution of the backend. *)
Lemma new_DataSource_eq env nm st w :
  new_DataSource env nm st w
  = ((r ← resolve env (length (sources w)) nm;
      match r with
      | None => ret tt
      | Some found =>
          match found with
          | Some m =>
              match m_installs m with
              | Some a => update (length (sources w)) (with_adapter (Some a))
              | None => ret tt
              end;;
              answer (m_done m) (Some (InitDone (length (sources w))))
          | None => ret tt
          end;;
          update (length (sources w)) (with_connect true)
      end);;
     ret (length (sources w)))
      (MkWorld (objects w ++ [Obj None []; Obj None []])
         (sources w
          ++ [MkDataSource (match nm with Named s => VStr s | _ => VUndef end)
                st false false None (length (objects w))
                (S (length (objects w))) false None false false])
         (pending w) (trace w)).
Proof.
  unfold new_DataSource, ADL_call, new_source.
  repeat first [rewrite bind_eq | rewrite alloc_eq | progress sim].
  norm. rewrite <- app_assoc. cbn [app].
  unfold setup.
  do 4 (rewrite bind_eq; erewrite update_eq by (sim; apply lookup_fresh);
        sim; rewrite insert_fresh).
  rewrite !bind_eq. reflexivity.
Qed.

Lemma resolve_found env nm m this d w :
  resolves_to env nm m → sources w !! this = Some d →
  resolve env this nm w
  = Ok (Some (Some m))
      (MkWorld (objects w)
         (<[this := match nm with
                    | Inline m' => with_name (m_name m') d
                    | _ => d
                    end]> (sources w))
         (pending w) (trace w)).
Proof.
  intros Hr Hd. destruct Hr as [m|s m Hp Ha|s m _ Hp Hb|s m _ Hp Hb Hf]; cbn [resolve].
  - rewrite bind_eq, (update_eq _ _ d) by done. reflexivity.
  - rewrite Hp, Ha. cbn. by rewrite list_insert_id, world_eta.
  - rewrite Hp, Hb. cbn. by rewrite list_insert_id, world_eta.
  - rewrite Hp, Hb, Hf. cbn. by rewrite list_insert_id, world_eta.
Qed.

(** The constructor when a module is found for the backend and its
    [initialize] sets [schema.adapter]. *)
Lemma new_DataSource_found env nm m a st w :
  resolves_to env nm m → m_installs m = Some a →
  new_DataSource env nm st w
  = ((answer (m_done m) (Some (InitDone (length (sources w))));;
      update (length (sources w)) (with_connect true));;
     ret (length (sources w)))
      (MkWorld (objects w ++ [Obj None []; Obj None []])
         (sources w
          ++ [MkDataSource (name_after nm) st false false (Some a)
                (length (objects w)) (S (length (objects w)))
                false None false false])
         (pending w) (trace w)).
Proof.
  intros Hr Ha. rewrite new_DataSource_eq.
  rewrite !bind_eq.
  erewrite resolve_found; [|exact Hr|sim; apply lookup_fresh].
  sim. rewrite insert_fresh.
  rewrite Ha. rewrite !bind_eq.
  erewrite update_eq by (sim; apply lookup_fresh). sim. rewrite insert_fresh.
  by destruct Hr.
Qed.

(** X1: when a module is found for the backend (an inline handle, an
    absolute path, a built-in adapter or a package, in this order) and its
    [initialize] sets the adapter, the constructor returns a DataSource
    with that adapter, two new empty registries, [connect] installed and
    [connecting = false]; its name is the handle's own name for an inline
    handle and the given name otherwise.  It is connected, and [connected]
    is raised, exactly when [initialize] calls back: at once, on the tick
    that runs the completion, or never. *)
Theorem constructor_with_adapter env nm m a st w :
  resolves_to env nm m → m_installs m = Some a →
  let this := length (sources w) in
  let n := length (objects w) in
  let h := objects w ++ [Obj None []; Obj None []] in
  (∀ args, m_done m = Now args →
     new_DataSource env nm st w
     = Ok this (MkWorld h (sources w ++ [constructed nm st true (Some a) n])
                  (pending w) (trace w ++ [Emitted this "connected"])))
  ∧ (∀ args, m_done m = Later args →
       new_DataSource env nm st w
       = Ok this (MkWorld h (sources w ++ [constructed nm st false (Some a) n])
                    (pending w ++ [(InitDone this, args)]) (trace w))
       ∧ (pending w = [] →
          tick (MkWorld h (sources w ++ [constructed nm st false (Some a) n])
                  (pending w ++ [(InitDone this, args)]) (trace w))
          = Ok tt (MkWorld h (sources w ++ [constructed nm st true (Some a) n])
                     [] (trace w ++ [Emitted this "connected"]))))
  ∧ (m_done m = Silent →
       new_DataSource env nm st w
       = Ok this (MkWorld h (sources w ++ [constructed nm st false (Some a) n])
                    (pending w) (trace w))).
Proof.
  intros Hr Ha this n h. subst this n h.
  pose proof (new_DataSource_found env nm m a st w Hr Ha) as Heq.
  assert (Hdone : ∀ ss p t (d : DataSource),
    adapter d = Some a →
    invoke (InitDone (length ss)) []
      (MkWorld (objects w ++ [Obj None []; Obj None []]) (ss ++ [d]) p t)
    = Ok tt (MkWorld (objects w ++ [Obj None []; Obj None []])
               (ss ++ [with_connected true d]) p
               (t ++ [Emitted (length ss) "connected"]))).
  { intros ss p t d Hd. cbn [invoke].
    rewrite bind_eq, (source_eq _ _ d) by (sim; apply lookup_fresh).
    rewrite Hd, bind_eq.
    erewrite update_eq by (sim; apply lookup_fresh). sim.
    by rewrite insert_fresh. }
  split; [|split].
  - intros args Hn. rewrite Heq, Hn. cbn [answer].
    assert (Hany : ∀ xs, invoke (InitDone (length (sources w))) xs
                         = invoke (InitDone (length (sources w))) []) by done.
    rewrite !bind_eq, Hany, Hdone by done.
    erewrite update_eq by (sim; apply lookup_fresh).
    sim. by rewrite insert_fresh.
  - intros args Hl. split.
    + rewrite Heq, Hl. cbn [answer]. rewrite !bind_eq. unfold defer. sim.
      erewrite update_eq by (sim; apply lookup_fresh).
      sim. by rewrite insert_fresh.
    + intros Hp. unfold tick. sim. rewrite Hp. cbn [app].
      assert (Hany : ∀ xs, invoke (InitDone (length (sources w))) xs
                           = invoke (InitDone (length (sources w))) []) by done.
      by rewrite Hany, Hdone.
  - intros Hs. rewrite Heq, Hs. cbn [answer].
    rewrite !bind_eq. cbn [ret].
    erewrite update_eq by (sim; apply lookup_fresh).
    sim. by rewrite insert_fresh.
Qed.

Lemma constructor_with_adapter_witness :
  let w := empty_world in
  let nm := Named "memory" in
  let this := length (sources w) in
  let n := length (objects w) in
  let h := objects w ++ [Obj None []; Obj None []] in
  (∀ args, m_done stub_module = Now args →
     new_DataSource memory_env nm VUndef w
     = Ok this (MkWorld h (sources w ++ [constructed nm VUndef true (Some stub) n])
                  (pending w) (trace w ++ [Emitted this "connected"])))
  ∧ (∀ args, m_done stub_module = Later args →
       new_DataSource memory_env nm VUndef w
       = Ok this (MkWorld h (sources w ++ [constructed nm VUndef false (Some stub) n])
                    (pending w ++ [(InitDone this, args)]) (trace w))
       ∧ (pending w = [] →
          tick (MkWorld h (sources w ++ [constructed nm VUndef false (Some stub) n])
                  (pending w ++ [(InitDone this, args)]) (trace w))
          = Ok tt (MkWorld h (sources w ++ [constructed nm VUndef true (Some stub) n])
                     [] (trace w ++ [Emitted this "connected"]))))
  ∧ (m_done stub_module = Silent →
       new_DataSource memory_env nm VUndef w
       = Ok this (MkWorld h (sources w ++ [constructed nm VUndef false (Some stub) n])
                    (pending w) (trace w))).
Proof.
  exact (constructor_with_adapter memory_env (Named "memory") stub_module stub
           VUndef empty_world
           (by_builtin memory_env "memory" stub_module ltac:(discriminate)
              eq_refl eq_refl)
           eq_refl).
Defined.

(** X2: when the module that is found does not set [schema.adapter], the
    completion of [initialize] throws the configuration error: out of the
    constructor when [initialize] calls back at once, out of the tick that
    runs the completion when it calls back later, after the constructor has
    returned a DataSource without adapter.  When [initialize] never calls
    back, nothing reports the missing adapter. *)
Theorem constructor_adapter_not_installed env nm m st w :
  resolves_to env nm m → m_installs m = None →
  let this := length (sources w) in
  let n := length (objects w) in
  let h := objects w ++ [Obj None []; Obj None []] in
  let failure :=
    Error "Adapter is not defined correctly: it should create `adapter` member of schema" in
  let unfinished :=
    MkDataSource (name_after nm) st false false None n (S n) false None
      false false in
  (∀ args, m_done m = Now args →
     new_DataSource env nm st w
     = Throw failure (MkWorld h (sources w ++ [unfinished]) (pending w) (trace w)))
  ∧ (∀ args, m_done m = Later args →
       new_DataSource env nm st w
       = Ok this (MkWorld h (sources w ++ [constructed nm st false None n])
                    (pending w ++ [(InitDone this, args)]) (trace w))
       ∧ (pending w = [] →
          tick (MkWorld h (sources w ++ [constructed nm st false None n])
                  (pending w ++ [(InitDone this, args)]) (trace w))
          = Throw failure
              (MkWorld h (sources w ++ [constructed nm st false None n]) []
                 (trace w))))
  ∧ (m_done m = Silent →
       new_DataSource env nm st w
       = Ok this (MkWorld h (sources w ++ [constructed nm st false None n])
                    (pending w) (trace w))).
Proof.
  intros Hr Ha this n h failure unfinished. subst this n h failure unfinished.
  assert (Heq : new_DataSource env nm st w
    = ((answer (m_done m) (Some (InitDone (length (sources w))));;
        update (length (sources w)) (with_connect true));;
       ret (length (sources w)))
        (MkWorld (objects w ++ [Obj None []; Obj None []])
           (sources w
            ++ [MkDataSource (name_after nm) st false false None
                  (length (objects w)) (S (length (objects w)))
                  false None false false])
           (pending w) (trace w))).
  { rewrite new_DataSource_eq. rewrite !bind_eq.
    erewrite resolve_found; [|exact Hr|sim; apply lookup_fresh].
    sim. rewrite insert_fresh. rewrite Ha. rewrite !bind_eq. cbn [ret].
    by destruct Hr. }
  assert (Hdone : ∀ xs p t (d : DataSource),
    adapter d = None →
    invoke (InitDone (length (sources w))) xs
      (MkWorld (objects w ++ [Obj None []; Obj None []]) (sources w ++ [d]) p t)
    = Throw (Error "Adapter is not defined correctly: it should create `adapter` member of schema")
        (MkWorld (objects w ++ [Obj None []; Obj None []]) (sources w ++ [d]) p t)).
  { intros xs p t d Hd. cbn [invoke].
    rewrite bind_eq, (source_eq _ _ d) by (sim; apply lookup_fresh).
    by rewrite Hd. }
  split; [|split].
  - intros args Hn. rewrite Heq, Hn. cbn [answer].
    by rewrite !bind_eq, Hdone.
  - intros args Hl. split.
    + rewrite Heq, Hl. cbn [answer]. rewrite !bind_eq. unfold defer. sim.
      erewrite update_eq by (sim; apply lookup_fresh).
      sim. by rewrite insert_fresh.
    + intros Hp. unfold tick. sim. rewrite Hp. cbn [app].
      by rewrite Hdone.
  - intros Hs. rewrite Heq, Hs. cbn [answer].
    rewrite !bind_eq. cbn [ret].
    erewrite update_eq by (sim; apply lookup_fresh).
    sim. by rewrite insert_fresh.
Qed.

Lemma constructor_adapter_not_installed_witness :
  let w := empty_world in
  let nm := Inline forgetful_module in
  let m := forgetful_module in
  let this := length (sources w) in
  let n := length (objects w) in
  let h := objects w ++ [Obj None []; Obj None []] in
  let failure :=
    Error "Adapter is not defined correctly: it should create `adapter` member of schema" in
  let unfinished :=
    MkDataSource (name_after nm) VUndef false false None n (S n) false None
      false false in
  (∀ args, m_done m = Now args →
     new_DataSource nothing_installed nm VUndef w
     = Throw failure (MkWorld h (sources w ++ [unfinished]) (pending w) (trace w)))
  ∧ (∀ args, m_done m = Later args →
       new_DataSource nothing_installed nm VUndef w
       = Ok this (MkWorld h (sources w ++ [constructed nm VUndef false None n])
                    (pending w ++ [(InitDone this, args)]) (trace w))
       ∧ (pending w = [] →
          tick (MkWorld h (sources w ++ [constructed nm VUndef false None n])
                  (pending w ++ [(InitDone this, args)]) (trace w))
          = Throw failure
              (MkWorld h (sources w ++ [constructed nm VUndef false None n]) []
                 (trace w))))
  ∧ (m_done m = Silent →
       new_DataSource nothing_installed nm VUndef w
       = Ok this (MkWorld h (sources w ++ [constructed nm VUndef false None n])
                    (pending w) (trace w))).
Proof.
  exact (constructor_adapter_not_installed nothing_installed
           (Inline forgetful_module) forgetful_module VUndef empty_world
           (by_handle nothing_installed forgetful_module) eq_refl).
Defined.

(** X3: a backend name that starts with a slash is loaded as a path and as
    nothing else: when nothing is there, the constructor throws, with no
    warning, whatever built-in adapter or package has that name. *)
Theorem constructor_path_not_found env s st w :
  String.prefix "/" s = true → absolute env s = None →
  new_DataSource env (Named s) st w
  = Throw (Error "Cannot find module")
      (MkWorld (objects w ++ [Obj None []; Obj None []])
         (sources w
          ++ [MkDataSource (VStr s) st false false None (length (objects w))
                (S (length (objects w))) false None false false])
         (pending w) (trace w)).
Proof.
  intros Hp Ha. rewrite new_DataSource_eq. rewrite !bind_eq.
  cbn [resolve]. by rewrite Hp, Ha.
Qed.

Lemma constructor_path_not_found_witness :
  new_DataSource memory_env (Named "/memory") VUndef empty_world
  = Throw (Error "Cannot find module")
      (MkWorld (objects empty_world ++ [Obj None []; Obj None []])
         (sources empty_world
          ++ [MkDataSource (VStr "/memory") VUndef false false None
                (length (objects empty_world))
                (S (length (objects empty_world))) false None false false])
         (pending empty_world) (trace empty_world)).
Proof.
  exact (constructor_path_not_found memory_env "/memory" VUndef empty_world
           eq_refl eq_refl).
Defined.

(** X4: without a name the constructor leaves a DataSource with no
    adapter, no warning, and [connect] installed; [connect(cb)] on it sets
    [connecting] and then throws on the missing adapter, and [cb] is not
    called.  After a name for which no adapter is found, [connect] was not
    installed at all (the constructor returned at the warning): calling it
    throws and changes nothing. *)
Theorem connect_without_adapter env s st cb w :
  s ≠ EmptyString →
  String.prefix "/" s = false → builtin env s = None → foreign env s = None →
  let this := length (sources w) in
  let n := length (objects w) in
  let h := objects w ++ [Obj None []; Obj None []] in
  let w1 := MkWorld h (sources w ++ [constructed Unnamed st false None n])
              (pending w) (trace w) in
  let w2 := MkWorld h
              (sources w ++ [MkDataSource (VStr s) st false false None n (S n)
                               false None false false])
              (pending w) (trace w ++ [Warned s]) in
  new_DataSource env Unnamed st w = Ok this w1
  ∧ connect this cb w1
    = Throw (TypeError "Cannot read property of undefined (adapter)")
        (MkWorld h
           (sources w ++ [with_connecting true (constructed Unnamed st false None n)])
           (pending w) (trace w))
  ∧ new_DataSource env (Named s) st w = Ok this w2
  ∧ connect this cb w2 = Throw (TypeError "connect is not a function") w2.
Proof.
  intros _ Hp Hb Hf this n h w1 w2. subst this n h w1 w2.
  split; [|split; [|split]].
  - rewrite new_DataSource_eq. rewrite !bind_eq. cbn [resolve ret].
    rewrite !bind_eq. cbn [ret].
    erewrite update_eq by (sim; apply lookup_fresh).
    sim. by rewrite insert_fresh.
  - unfold connect.
    rewrite bind_eq, (source_eq _ _ (constructed Unnamed st false None _))
      by (sim; apply lookup_fresh).
    cbn [has_connect constructed negb].
    rewrite bind_eq. erewrite update_eq by (sim; apply lookup_fresh).
    sim. rewrite insert_fresh.
    rewrite bind_eq. erewrite the_adapter_none; [done|sim; apply lookup_fresh|done].
  - by apply new_DataSource_unresolved.
  - unfold connect.
    by erewrite bind_eq, source_eq by (sim; apply lookup_fresh).
Qed.

Lemma connect_without_adapter_witness :
  let w := empty_world in
  let this := length (sources w) in
  let n := length (objects w) in
  let h := objects w ++ [Obj None []; Obj None []] in
  let w1 := MkWorld h (sources w ++ [constructed Unnamed VUndef false None n])
              (pending w) (trace w) in
  let w2 := MkWorld h
              (sources w ++ [MkDataSource (VStr "nothing") VUndef false false
                               None n (S n) false None false false])
              (pending w) (trace w ++ [Warned "nothing"]) in
  new_DataSource nothing_installed Unnamed VUndef w = Ok this w1
  ∧ connect this (Some 1) w1
    = Throw (TypeError "Cannot read property of undefined (adapter)")
        (MkWorld h
           (sources w
            ++ [with_connecting true (constructed Unnamed VUndef false None n)])
           (pending w) (trace w))
  ∧ new_DataSource nothing_installed (Named "nothing") VUndef w = Ok this w2
  ∧ connect this (Some 1) w2 = Throw (TypeError "connect is not a function") w2.
Proof.
  exact (connect_without_adapter nothing_installed "nothing" VUndef (Some 1)
           empty_world ltac:(discriminate) eq_refl eq_refl eq_refl).
Defined.

(** ** [connect] and [disconnect] with an adapter *)

(** [connect] up to the adapter's answer. *)
Lemma connect_eq this cb a r d w :
  sources w !! this = Some d → has_connect d = true →
  adapter d = Some a → supports a Connect = Some r →
  connect this cb w
  = answer r (Some (ConnectDone this cb))
      (MkWorld (objects w) (<[this := with_connecting true d]> (sources w))
         (pending w)
         (trace w ++ [AdapterCall this Connect [] (Some (ConnectDone this cb))])).
Proof.
  intros H Hc Ha Hs. unfold connect.
  rewrite bind_eq, (source_eq _ _ _ H), Hc. cbn [negb].
  rewrite bind_eq, (update_eq _ _ d) by done.
  rewrite bind_eq.
  erewrite the_adapter_eq;
    [|sim; apply list_lookup_insert_eq; by eapply lookup_lt_Some|exact Ha].
  rewrite Hs. unfold adapter_call. by rewrite Hs.
Qed.

(** A completion of [connect] that receives no error. *)
Lemma connect_done_success w schema d cb args :
  sources w !! schema = Some d → truthy (arg 0 args) = false →
  invoke (ConnectDone schema cb) args w
  = Ok tt (MkWorld (objects w)
             (<[schema := with_connecting false (with_connected true d)]>
                (sources w))
             (pending w)
             (trace w ++ Emitted schema "connected" :: called cb [arg 0 args])).
Proof.
  intros Hd He. cbn [invoke]. rewrite He.
  assert (Hlt : schema < length (sources w)) by (by eapply lookup_lt_Some).
  rewrite !bind_eq, (update_eq _ _ d) by done.
  rewrite bind_eq.
  erewrite update_eq by (sim; by apply list_lookup_insert_eq).
  sim. rewrite list_insert_insert_eq.
  unfold emit. sim.
  destruct cb; cbn [called ret]; sim; by rewrite <- ?app_assoc, ?app_nil_r.
Qed.

(** X5: when the adapter's [connect] reports no error, [connected]
    becomes true and [connecting] false, [connected] is raised, and only
    then the caller's completion, if there is one, is called with what the
    adapter reported; no other DataSource is touched.  This happens before
    [connect] returns when the adapter answers at once, and on the tick
    that runs the completion otherwise; until then [connecting] is true
    and [connected] as it was. *)
Theorem connect_success this cb a r d w :
  sources w !! this = Some d → has_connect d = true →
  adapter d = Some a → supports a Connect = Some r →
  let request := AdapterCall this Connect [] (Some (ConnectDone this cb)) in
  let completed err := Emitted this "connected" :: called cb [err] in
  let up := <[this := with_connecting false (with_connected true d)]> (sources w) in
  (∀ args, r = Now args → truthy (arg 0 args) = false →
     connect this cb w
     = Ok tt (MkWorld (objects w) up (pending w)
                (trace w ++ request :: completed (arg 0 args))))
  ∧ (∀ args, r = Later args → truthy (arg 0 args) = false →
       let w1 := MkWorld (objects w)
                   (<[this := with_connecting true d]> (sources w))
                   (pending w ++ [(ConnectDone this cb, args)])
                   (trace w ++ [request]) in
       connect this cb w = Ok tt w1
       ∧ (pending w = [] →
          tick w1 = Ok tt (MkWorld (objects w) up []
                             (trace w ++ request :: completed (arg 0 args))))).
Proof.
  intros H Hc Ha Hs request completed up. subst request completed up.
  assert (Hl : (<[this := with_connecting true d]> (sources w)) !! this
               = Some (with_connecting true d)).
  { apply list_lookup_insert_eq. by eapply lookup_lt_Some. }
  split.
  - intros args -> He. rewrite (connect_eq _ _ _ _ _ _ H Hc Ha Hs). cbn [answer].
    rewrite (connect_done_success _ _ (with_connecting true d)) by done.
    sim. by rewrite list_insert_insert_eq, <- app_assoc.
  - intros args -> He. cbn zeta. split.
    + by rewrite (connect_eq _ _ _ _ _ _ H Hc Ha Hs).
    + intros Hp. unfold tick. sim. rewrite Hp. cbn [app].
      rewrite (connect_done_success _ _ (with_connecting true d)) by done.
      sim. by rewrite list_insert_insert_eq, <- app_assoc.
Qed.

Lemma connect_success_witness :
  let d := MkDataSource (VStr "reachable") VUndef true false (Some reachable)
             0 1 false None true false in
  let w := reachable_world in
  let request := AdapterCall 0 Connect [] (Some (ConnectDone 0 (Some 1))) in
  let completed err := Emitted 0 "connected" :: called (Some 1) [err] in
  let up := <[0 := with_connecting false (with_connected true d)]> (sources w) in
  (∀ args, Later [] = Now args → truthy (arg 0 args) = false →
     connect 0 (Some 1) w
     = Ok tt (MkWorld (objects w) up (pending w)
                (trace w ++ request :: completed (arg 0 args))))
  ∧ (∀ args, Later [] = Later args → truthy (arg 0 args) = false →
       let w1 := MkWorld (objects w)
                   (<[0 := with_connecting true d]> (sources w))
                   (pending w ++ [(ConnectDone 0 (Some 1), args)])
                   (trace w ++ [request]) in
       connect 0 (Some 1) w = Ok tt w1
       ∧ (pending w = [] →
          tick w1 = Ok tt (MkWorld (objects w) up []
                             (trace w ++ request :: completed (arg 0 args))))).
Proof.
  exact (connect_success 0 (Some 1) reachable (Later [])
           (MkDataSource (VStr "reachable") VUndef true false (Some reachable)
              0 1 false None true false)
           reachable_world eq_refl eq_refl eq_refl eq_refl).
Defined.

(** X7: [disconnect(cb)] on a DataSource whose adapter has [disconnect]
    sets [connected] to false at once, before the adapter has answered,
    leaves [connecting] as it is, and hands [cb] to the adapter; when the
    adapter has no [disconnect], no flag changes, [connected] stays as it
    was, and [cb], if there is one, is called at once with no argument. *)
Theorem disconnect_with_adapter this cb a d w :
  sources w !! this = Some d → adapter d = Some a →
  (∀ r, supports a Disconnect = Some r →
     disconnect this cb w
     = Ok tt (MkWorld (objects w) (<[this := with_connected false d]> (sources w))
                (pending w ++ queued r (UserCb <$> cb))
                (trace w ++ AdapterCall this Disconnect [] (UserCb <$> cb)
                   :: answered r cb)))
  ∧ (supports a Disconnect = None →
     disconnect this cb w
     = Ok tt (MkWorld (objects w) (sources w) (pending w)
                (trace w ++ called cb []))).
Proof.
  intros H Ha. split.
  - intros r Hs. unfold disconnect.
    rewrite bind_eq, (the_adapter_eq _ _ _ _ H Ha), Hs.
    rewrite bind_eq, (update_eq _ _ d) by done.
    by rewrite (adapter_call_user _ _ _ _ r).
  - intros Hs. unfold disconnect.
    rewrite bind_eq, (the_adapter_eq _ _ _ _ H Ha), Hs.
    by rewrite call_if_eq.
Qed.

Lemma disconnect_with_adapter_witness :
  let d := MkDataSource (VStr "reachable") VUndef true false (Some reachable)
             0 1 false None true false in
  let w := reachable_world in
  (∀ r, supports reachable Disconnect = Some r →
     disconnect 0 (Some 1) w
     = Ok tt (MkWorld (objects w) (<[0 := with_connected false d]> (sources w))
                (pending w ++ queued r (UserCb <$> Some 1))
                (trace w ++ AdapterCall 0 Disconnect [] (UserCb <$> Some 1)
                   :: answered r (Some 1))))
  ∧ (supports reachable Disconnect = None →
     disconnect 0 (Some 1) w
     = Ok tt (MkWorld (objects w) (sources w) (pending w)
                (trace w ++ called (Some 1) []))).
Proof.
  exact (disconnect_with_adapter 0 (Some 1) reachable
           (MkDataSource (VStr "reachable") VUndef true false (Some reachable)
              0 1 false None true false)
           reachable_world eq_refl eq_refl).
Defined.

(** X8: on a DataSource that has no adapter, [freeze], the seven
    operations of the discovery delegate, [disconnect] and [transaction]
    throw a TypeError and change nothing: no flag, no registry, no
    completion called or queued. *)
Theorem without_adapter_nothing_happens this c d w :
  sources w !! this = Some d → adapter d = None → needs_adapter c = true →
  perform this c w
  = Throw (TypeError "Cannot read property of undefined (adapter)") w.
Proof.
  intros H Ha Hc.
  destruct c as [dao cn P St|m p params|g args cb| | |t|cn key f|cb|m| |cb];
    try discriminate Hc; cbn [perform].
  - destruct g; cbn [run];
      unfold automigrate, autoupdate, isActual, discoverModels,
        discoverModelProperties, discoverPrimaryKeys, discoverForeignKeys;
      by rewrite bind_eq, (freeze_none _ _ _ H Ha).
  - by apply (freeze_none _ _ d).
  - unfold disconnect. by rewrite bind_eq, (the_adapter_none _ _ _ H Ha).
  - rewrite bind_eq. unfold transaction.
    by rewrite bind_eq, (source_eq _ _ _ H), bind_eq,
      (the_adapter_none _ _ _ H Ha).
Qed.

Lemma without_adapter_nothing_happens_witness :
  perform 0 (CDisconnect (Some 1)) unnamed_world
  = Throw (TypeError "Cannot read property of undefined (adapter)") unnamed_world.
Proof.
  exact (without_adapter_nothing_happens 0 (CDisconnect (Some 1))
           (MkDataSource VUndef VUndef false false None 0 1 false None
              true false)
           unnamed_world eq_refl eq_refl eq_refl).
Defined.

(** ** What the operations leave alone *)

Lemma preserves_bind {B} (proj : world → B) {A C} (m : M A) (f : A → M C) :
  preserves proj m → (∀ a, preserves proj (f a)) → preserves proj (m ≫= f).
Proof.
  intros Hm Hf w. rewrite bind_eq. specialize (Hm w).
  destruct (m w) as [a w1|e w1]; cbn [final] in *; [|done].
  rewrite <- Hm. apply Hf.
Qed.

Lemma preserves_ret {B} (proj : world → B) {A} (a : A) : preserves proj (ret a).
Proof. by intros w. Qed.

Lemma preserves_throw {B} (proj : world → B) {A} e : preserves proj (@throw A e).
Proof. by intros w. Qed.

Lemma preserves_source {B} (proj : world → B) this : preserves proj (source this).
Proof. intros w. unfold source. by destruct (sources w !! this). Qed.

Lemma preserves_member {B} (proj : world → B) v k : preserves proj (member v k).
Proof. intros w. by rewrite member_pure. Qed.

Lemma preserves_the_adapter {B} (proj : world → B) this :
  preserves proj (the_adapter this).
Proof.
  apply preserves_bind; [apply preserves_source|].
  intros d. destruct (adapter d); [apply preserves_ret|apply preserves_throw].
Qed.

Lemma preserves_for_each {B} (proj : world → B) {A} (xs : list A) body :
  (∀ x, preserves proj (body x)) → preserves proj (for_each xs body).
Proof.
  intros Hb. induction xs as [|x xs IH]; [apply preserves_ret|].
  cbn. apply preserves_bind; [apply Hb|by intros _].
Qed.

Lemma preserves_emit {B} (proj : world → B) e :
  (∀ h ss p t t', proj (MkWorld h ss p t) = proj (MkWorld h ss p t')) →
  preserves proj (emit e).
Proof. intros Hp [h ss p t]. cbn. apply Hp. Qed.

Lemma preserves_defer {B} (proj : world → B) c args :
  (∀ h ss p p' t, proj (MkWorld h ss p t) = proj (MkWorld h ss p' t)) →
  preserves proj (defer c args).
Proof. intros Hp [h ss p t]. cbn. apply Hp. Qed.

(** The DataSource records *)

Lemma records_emit e : preserves sources (emit e).
Proof. by apply preserves_emit. Qed.

Lemma records_defer c args : preserves sources (defer c args).
Proof. by apply preserves_defer. Qed.

Lemma records_alloc o : preserves sources (alloc o).
Proof. by intros w. Qed.

Lemma records_literal fields : preserves sources (literal fields).
Proof. by intros w. Qed.

Lemma records_get_heap : preserves sources get_heap.
Proof. by intros w. Qed.

Lemma records_set_member v k x : preserves sources (set_member v k x).
Proof. intros w. by destruct v. Qed.

Lemma records_has_member v k : preserves sources (has_member v k).
Proof. intros w. by destruct v. Qed.

Lemma records_defineProperty v k desc :
  preserves sources (Object_defineProperty v k desc).
Proof.
  intros w. destruct v; try done. unfold Object_defineProperty, get_heap.
  rewrite bind_eq. repeat case_match; done.
Qed.

Lemma records_set_proto l p : preserves sources (set_proto l p).
Proof.
  intros w. destruct p; try done. unfold set_proto, get_heap.
  rewrite bind_eq. repeat case_match; done.
Qed.

Create HintDb records.
#[local] Hint Resolve preserves_ret preserves_throw preserves_source
  preserves_member preserves_the_adapter records_emit records_defer
  records_alloc records_literal records_get_heap records_set_member
  records_has_member records_defineProperty records_set_proto : records.

(** The routine part: a sequence preserves what its parts preserve, a
    choice what its branches preserve. *)
Ltac preserves_step leaf :=
  first
    [ apply preserves_bind; [|intros ?]
    | match goal with
      | |- preserves _ (if ?b then _ else _) => destruct b
      | |- preserves _ (match ?x with _ => _ end) => destruct x
      end
    | solve [leaf] ].

Ltac records_auto := repeat preserves_step ltac:(eauto with records).

Lemma records_properties_of this cn : preserves sources (properties_of this cn).
Proof. unfold properties_of. records_auto. Qed.

Lemma records_settings_of this t : preserves sources (settings_of this t).
Proof. unfold settings_of. records_auto. Qed.

Lemma records_hiddenProperty v k x : preserves sources (hiddenProperty v k x).
Proof. apply records_defineProperty. Qed.

#[local] Hint Resolve records_properties_of records_settings_of
  records_hiddenProperty : records.

Lemma records_answer_user r cb : preserves sources (answer r (UserCb <$> cb)).
Proof. destruct r, cb; cbn; eauto with records. Qed.

Lemma records_adapter_call_user this a o args cb :
  preserves sources (adapter_call this a o args (UserCb <$> cb)).
Proof.
  unfold adapter_call. destruct (supports a o); [|apply preserves_throw].
  apply preserves_bind; [apply records_emit|]. intros _.
  apply records_answer_user.
Qed.

Lemma records_adapter_call_none this a o args :
  preserves sources (adapter_call this a o args None).
Proof. apply (records_adapter_call_user this a o args None). Qed.

Lemma records_foreign_key_done t cn key args :
  preserves sources (invoke (ForeignKeyDone t cn key) args).
Proof. cbn [invoke]. cbn zeta. records_auto. Qed.

Lemma records_adapter_call_keys this a args t cn key :
  preserves sources (adapter_call this a DefineForeignKey args
                       (Some (ForeignKeyDone t cn key))).
Proof.
  unfold adapter_call. destruct (supports a DefineForeignKey) as [r|];
    [|apply preserves_throw].
  apply preserves_bind; [apply records_emit|]. intros _.
  destruct r; cbn [answer];
    [apply records_foreign_key_done|apply records_defer|apply preserves_ret].
Qed.

Lemma records_call_if cb args : preserves sources (call_if cb args).
Proof. destruct cb; cbn; eauto with records. Qed.

#[local] Hint Resolve records_adapter_call_user records_adapter_call_none
  records_adapter_call_keys records_call_if : records.

Lemma records_freeze this : preserves sources (freeze this).
Proof. unfold freeze. records_auto. Qed.

Lemma records_registerProperty m key : preserves sources (registerProperty m key).
Proof. unfold registerProperty. records_auto. Qed.

#[local] Hint Resolve records_freeze records_registerProperty : records.

(** X9: [define], [defineProperty], [freeze], the operations of the
    discovery delegate, [log], [tableName], [defineForeignKey], [copyModel]
    and [exec] leave every DataSource record as it is, whether they return
    or throw: name, settings, adapter and both flags of every DataSource
    are those from before, and no DataSource is created.  Only [connect],
    [disconnect], [transaction] and the completions of [initialize] and
    [connect] assign them. *)
Theorem records_unchanged this c :
  keeps_records c = true → preserves sources (perform this c).
Proof.
  intros Hc.
  destruct c as [dao cn P St|m p params|g args cb| | |t|cn key f|cb|m| |cb];
    try discriminate Hc; cbn [perform].
  - unfold define, ADL_define. records_auto.
    apply preserves_for_each. intros kv. apply records_set_member.
  - unfold defineProperty, ADL_defineProperty. records_auto.
  - destruct g; cbn [run];
      unfold automigrate, autoupdate, isActual, discoverModels,
        discoverModelProperties, discoverPrimaryKeys, discoverForeignKeys;
      records_auto.
  - apply records_freeze.
  - apply records_emit.
  - unfold tableName. records_auto.
  - unfold defineForeignKey. records_auto.
  - unfold copyModel, copyModel_store. records_auto.
  - unfold exec. records_auto.
Qed.

Lemma records_unchanged_witness :
  sources (final (perform 0 (CDefineForeignKey "A" "bId" (VStr "B"))
                    (with_type_A quick_keys)))
  = sources (with_type_A quick_keys).
Proof.
  exact (records_unchanged 0 (CDefineForeignKey "A" "bId" (VStr "B")) eq_refl
           (with_type_A quick_keys)).
Defined.

(** The heap *)

Lemma heap_emit e : preserves objects (emit e).
Proof. by apply preserves_emit. Qed.

Lemma heap_defer c args : preserves objects (defer c args).
Proof. by apply preserves_defer. Qed.

Lemma heap_update this f : preserves objects (update this f).
Proof. intros w. unfold update. by destruct (sources w !! this). Qed.

Create HintDb heap_kept.
#[local] Hint Resolve preserves_ret preserves_throw preserves_source
  preserves_member preserves_the_adapter heap_emit heap_defer heap_update
  : heap_kept.

Ltac heap_auto := repeat preserves_step ltac:(eauto with heap_kept).

Lemma heap_invoke c args :
  match c with ForeignKeyDone _ _ _ => False | _ => True end →
  preserves objects (invoke c args).
Proof.
  intros Hc. destruct c as [id|s|s cb|t cn key]; [| | |done];
    cbn [invoke]; cbn zeta; heap_auto.
Qed.

Lemma heap_answer_user r cb : preserves objects (answer r (UserCb <$> cb)).
Proof. destruct r, cb; cbn; eauto with heap_kept. Qed.

Lemma heap_adapter_call_user this a o args cb :
  preserves objects (adapter_call this a o args (UserCb <$> cb)).
Proof.
  unfold adapter_call. destruct (supports a o); [|apply preserves_throw].
  apply preserves_bind; [apply heap_emit|]. intros _. apply heap_answer_user.
Qed.

Lemma heap_adapter_call_none this a o args :
  preserves objects (adapter_call this a o args None).
Proof. apply (heap_adapter_call_user this a o args None). Qed.

Lemma heap_call_if cb args : preserves objects (call_if cb args).
Proof. destruct cb; cbn; eauto with heap_kept. Qed.

#[local] Hint Resolve heap_adapter_call_user heap_adapter_call_none
  heap_call_if : heap_kept.

Lemma heap_freeze this : preserves objects (freeze this).
Proof. unfold freeze. heap_auto. Qed.

#[local] Hint Resolve heap_freeze : heap_kept.

Lemma heap_connect this cb : preserves objects (connect this cb).
Proof.
  unfold connect, adapter_call. heap_auto.
  match goal with |- preserves _ (answer ?r _) => destruct r end;
    cbn [answer]; [by apply heap_invoke|apply heap_defer|apply preserves_ret].
Qed.

(** X10: [connect], [disconnect], [freeze], [log], the seven operations
    of the discovery delegate and [exec] never write to the heap: the
    registries, the types and their descriptors are, object for object,
    those from before, whatever the adapter answers and whether the call
    returns or throws.  The same holds for a tick that runs a completion
    of the caller, of [initialize] or of [connect]. *)
Theorem lifecycle_keeps_heap this c cb :
  lifecycle c = true →
  preserves objects (perform this c)
  ∧ preserves objects (connect this cb)
  ∧ ∀ w, match pending w with
         | (ForeignKeyDone _ _ _, _) :: _ => False
         | _ => True
         end → objects (final (tick w)) = objects w.
Proof.
  intros Hc. split; [|split; [apply heap_connect|]].
  - destruct c as [dao cn P St|m p params|g args cb'| | |t|cn key f|cb'|m| |cb'];
      try discriminate Hc; cbn [perform].
    + destruct g; cbn [run];
        unfold automigrate, autoupdate, isActual, discoverModels,
          discoverModelProperties, discoverPrimaryKeys, discoverForeignKeys;
        heap_auto.
    + apply heap_freeze.
    + apply heap_emit.
    + unfold disconnect. heap_auto.
    + unfold exec. heap_auto.
  - intros w Hp. unfold tick.
    destruct (pending w) as [|[c' args] rest]; [done|].
    rewrite heap_invoke; [done|by destruct c'].
Qed.

Lemma lifecycle_keeps_heap_witness :
  preserves objects (perform 0 (CDisconnect (Some 1)))
  ∧ preserves objects (connect 0 (Some 1))
  ∧ ∀ w, match pending w with
         | (ForeignKeyDone _ _ _, _) :: _ => False
         | _ => True
         end → objects (final (tick w)) = objects w.
Proof.
  exact (lifecycle_keeps_heap 0 (CDisconnect (Some 1)) (Some 1) eq_refl).
Defined.

(** The records of the other DataSources *)

Lemma only_touches_refl this w : only_touches this w w.
Proof. by split. Qed.

Lemma only_touches_trans this w1 w2 w3 :
  only_touches this w1 w2 → only_touches this w2 w3 → only_touches this w1 w3.
Proof.
  intros [Hl1 H1] [Hl2 H2]. split; [congruence|].
  intros that Hne. by rewrite H2, H1.
Qed.

Lemma only_touches_sources this w w' :
  sources w' = sources w → only_touches this w w'.
Proof. intros Hs. split; by rewrite Hs. Qed.

Lemma only_touches_bind this {A C} (m : M A) (f : A → M C) w :
  only_touches this w (final (m w)) →
  (∀ a w', only_touches this w' (final (f a w'))) →
  only_touches this w (final ((m ≫= f) w)).
Proof.
  intros Hm Hf. rewrite bind_eq.
  destruct (m w) as [a w1|e w1]; cbn [final] in *; [|done].
  eapply only_touches_trans; [exact Hm|apply Hf].
Qed.

Lemma only_touches_update this f w :
  only_touches this w (final (update this f w)).
Proof.
  unfold update. destruct (sources w !! this); [|apply only_touches_refl].
  split; cbn; [by rewrite length_insert|].
  intros that Hne. by rewrite list_lookup_insert_ne.
Qed.

Lemma only_touches_preserves this {A} (m : M A) w :
  preserves sources m → only_touches this w (final (m w)).
Proof. intros Hm. apply only_touches_sources, Hm. Qed.

Lemma only_touches_invoke this cb args w :
  only_touches this w (final (invoke (ConnectDone this cb) args w)).
Proof.
  cbn [invoke]. cbn zeta.
  apply only_touches_bind.
  - destruct (truthy (arg 0 args)); [apply only_touches_refl|].
    apply only_touches_bind; [apply only_touches_update|]. intros _ w1.
    apply only_touches_bind; [apply only_touches_update|]. intros _ w2.
    apply only_touches_preserves, records_emit.
  - intros _ w1. destruct cb;
      [apply only_touches_preserves, records_emit|apply only_touches_refl].
Qed.

(** X11: [connect] and [disconnect] of one DataSource change the record
    of no other: the flags, adapter, name and settings of every other
    DataSource, the parent of a transaction context among them, are as they
    were, whatever the adapter answers and whether the call returns or
    throws; and so it is on the tick where a completion of that [connect]
    runs. *)
Theorem connect_touches_only_this this cb w :
  only_touches this w (final (connect this cb w))
  ∧ only_touches this w (final (disconnect this cb w))
  ∧ ∀ args rest,
      pending w = (ConnectDone this cb, args) :: rest →
      only_touches this w (final (tick w)).
Proof.
  split; [|split].
  - unfold connect.
    apply only_touches_bind;
      [apply only_touches_preserves, preserves_source|]. intros d w1.
    destruct (negb (has_connect d)); [apply only_touches_refl|].
    apply only_touches_bind; [apply only_touches_update|]. intros _ w2.
    apply only_touches_bind;
      [apply only_touches_preserves, preserves_the_adapter|]. intros a w3.
    destruct (supports a Connect) as [r|] eqn:Hs.
    + unfold adapter_call. rewrite Hs.
      apply only_touches_bind;
        [apply only_touches_preserves, records_emit|]. intros _ w4.
      destruct r; cbn [answer];
        [apply only_touches_invoke
        |apply only_touches_preserves, records_defer
        |apply only_touches_refl].
    + destruct cb;
        [apply only_touches_preserves, records_defer|apply only_touches_refl].
  - unfold disconnect.
    apply only_touches_bind;
      [apply only_touches_preserves, preserves_the_adapter|]. intros a w1.
    destruct (supports a Disconnect).
    + apply only_touches_bind; [apply only_touches_update|]. intros _ w2.
      apply only_touches_preserves, records_adapter_call_user.
    + apply only_touches_preserves, records_call_if.
  - intros args rest Hp. unfold tick. rewrite Hp.
    eapply only_touches_trans; [|apply only_touches_invoke].
    by apply only_touches_sources.
Qed.

Lemma connect_touches_only_this_witness :
  let w := final (transaction 0 two_types) in
  only_touches 1 w (final (connect 1 (Some 1) w))
  ∧ only_touches 1 w (final (disconnect 1 (Some 1) w))
  ∧ ∀ args rest,
      pending w = (ConnectDone 1 (Some 1), args) :: rest →
      only_touches 1 w (final (tick w)).
Proof.
  exact (connect_touches_only_this 1 (Some 1) (final (transaction 0 two_types))).
Defined.

(** ** Foreign keys *)











(** X15: for a type name that the registry does not know, [tableName]
    and [defineForeignKey] throw a TypeError on the missing
    TypeDescriptor, before anything is written and before the adapter is
    looked at. *)
Theorem undeclared_type_throws w this d cn key f :
  sources w !! this = Some d →
  read (objects w) (definitions d) cn = VUndef →
  tableName this cn w = Throw (TypeError "Cannot read property settings") w
  ∧ defineForeignKey this cn key f w
    = Throw (TypeError "Cannot read property properties") w.
Proof.
  intros Hd Hu. split.
  - unfold tableName, settings_of.
    rewrite !bind_eq, (member_definitions _ d) by done.
    by rewrite bind_eq, member_obj, Hu.
  - unfold defineForeignKey, properties_of.
    rewrite !bind_eq, (member_definitions _ d) by done.
    by rewrite bind_eq, member_obj, Hu.
Qed.

Lemma undeclared_type_throws_witness :
  tableName 0 "B" (with_type_A stub)
  = Throw (TypeError "Cannot read property settings") (with_type_A stub)
  ∧ defineForeignKey 0 "B" "aId" (VStr "A") (with_type_A stub)
    = Throw (TypeError "Cannot read property properties") (with_type_A stub).
Proof.
  exact (undeclared_type_throws (with_type_A stub) 0
           (MkDataSource (VStr "keys") VUndef true false (Some stub) 0 1
              false None true false)
           "B" "aId" (VStr "A") eq_refl eq_refl).
Defined.

(** ** Transactions and copies *)

(** X16: [transaction()] asks the adapter for one thing, its
    [transaction()]; the copies of the declared types are not announced to
    any adapter and no completion is queued.  The context it returns has
    [exec], which hands the caller's completion to the [exec] of the
    transaction adapter (and throws when that adapter has none); the
    DataSource it was opened on has no [exec]. *)
Theorem transaction_then_exec w this d a ta cb :
  sources w !! this = Some d → adapter d = Some a → factory a = Some ta →
  registry_ok w this = true → has_exec d = false →
  let t := length (sources w) in
  ∃ w',
    transaction this w = Ok t w'
    ∧ trace w' = trace w ++ [TransactionCall this]
    ∧ pending w' = pending w
    ∧ (∀ r, supports ta Exec = Some r →
         exec t cb w'
         = Ok tt (MkWorld (objects w') (sources w')
                    (pending w ++ queued r (UserCb <$> cb))
                    (trace w' ++ AdapterCall t Exec [] (UserCb <$> cb)
                       :: answered r cb)))
    ∧ (supports ta Exec = None →
       exec t cb w' = Throw (TypeError "adapter member is not a function") w')
    ∧ exec this cb w' = Throw (TypeError "exec is not a function") w'.
Proof.
  intros Hd Ha Hfac Hok He t. subst t.
  destruct (transaction_eq w this d a ta Hd Ha Hfac Hok) as (H' & Htx & _).
  eexists. split; [exact Htx|]. sim.
  split; [done|]. split; [done|].
  assert (Ht : (sources w ++ [context_of this d ta (length (objects w))])
               !! length (sources w)
               = Some (context_of this d ta (length (objects w))))
    by apply lookup_fresh.
  split; [|split].
  - intros r Hs. unfold exec.
    rewrite bind_eq. erewrite source_eq by (sim; exact Ht).
    cbn [has_exec context_of negb].
    rewrite bind_eq. erewrite the_adapter_eq; [|sim; exact Ht|done].
    by rewrite (adapter_call_user _ _ _ _ r).
  - intros Hs. unfold exec.
    rewrite bind_eq. erewrite source_eq by (sim; exact Ht).
    cbn [has_exec context_of negb].
    rewrite bind_eq. erewrite the_adapter_eq; [|sim; exact Ht|done].
    unfold adapter_call. by rewrite Hs.
  - unfold exec.
    rewrite bind_eq, (source_eq _ _ d) by (by apply lookup_app_l_Some).
    by rewrite He.
Qed.

Lemma transaction_then_exec_witness :
  let w := two_types in
  let ta := MkAdapter (λ o, match o with Exec => Some (Now []) | _ => None end)
              0 None in
  ∃ w',
    transaction 0 w = Ok 1 w'
    ∧ trace w' = trace w ++ [TransactionCall 0]
    ∧ pending w' = pending w
    ∧ (∀ r, supports ta Exec = Some r →
         exec 1 (Some 1) w'
         = Ok tt (MkWorld (objects w') (sources w')
                    (pending w ++ queued r (UserCb <$> Some 1))
                    (trace w' ++ AdapterCall 1 Exec [] (UserCb <$> Some 1)
                       :: answered r (Some 1))))
    ∧ (supports ta Exec = None →
       exec 1 (Some 1) w'
       = Throw (TypeError "adapter member is not a function") w')
    ∧ exec 0 (Some 1) w' = Throw (TypeError "exec is not a function") w'.
Proof.
  exact (transaction_then_exec two_types 0
           (MkDataSource (VStr "tx") VUndef true false (Some transactional)
              0 1 false None true false)
           transactional
           (MkAdapter (λ o, match o with Exec => Some (Now []) | _ => None end)
              0 None)
           (Some 1)
           eq_refl eq_refl eq_refl ltac:(vm_compute; reflexivity) eq_refl).
Defined.

(** X17: [copyModel] of a type whose name the receiving registry already
    holds (a copy into the registry of the master itself, for one) creates
    and returns a new constructor with the identity facts, and nothing
    more: the registry still holds the earlier type under that name, no
    TypeDescriptor is written, no object of the heap changes and no adapter
    is told. *)
Theorem copyModel_name_taken this lm w cn s ds rel d mp p :
  own_value (objects w) lm "modelName" = Some cn →
  own_value (objects w) lm "schema" = Some (VSource s) →
  sources w !! s = Some ds →
  own_value (objects w) lm "relations" = Some rel →
  sources w !! this = Some d →
  objects w !! models d = Some (Obj None mp) →
  own (to_key cn) mp = Some p →
  let w' := MkWorld (objects w ++ [Slave_obj (Some lm) (VObj lm) this cn rel])
              (sources w) (pending w) (trace w) in
  copyModel this (VObj lm) w = Ok (VObj (length (objects w))) w'
  ∧ read (objects w') (models d) (to_key cn) = p_value p
  ∧ frame [] (objects w) (objects w').
Proof.
  intros Hcn Hsch Hds Hrel Hd Hm Hp w'. subst w'. sim.
  assert (Hm' : (objects w ++ [Slave_obj (Some lm) (VObj lm) this cn rel])
                !! models d = Some (Obj None mp))
    by (by apply lookup_app_l_Some).
  split; [|split].
  - rewrite (copyModel_obj _ _ _ _ _ _ _ Hcn Hsch Hds Hrel).
    unfold copyModel_store.
    rewrite bind_eq, (member_models _ d) by done.
    rewrite bind_eq, has_member_obj. sim.
    unfold has. rewrite (lookup_chain_plain _ _ _ _ Hm' eq_refl).
    cbn [o_props]. by rewrite Hp.
  - apply read_own, own_value_Some. by exists (Obj None mp), p.
  - apply frame_app, frame_refl.
Qed.

Lemma copyModel_name_taken_witness :
  let w := with_type_A stub in
  let w' := MkWorld (objects w
                     ++ [Slave_obj (Some 4) (VObj 4) 0 (VStr "A") (VObj 5)])
              (sources w) (pending w) (trace w) in
  copyModel 0 (VObj 4) w = Ok (VObj (length (objects w))) w'
  ∧ read (objects w') 0 (to_key (VStr "A")) = p_value (data (VObj 4))
  ∧ frame [] (objects w) (objects w').
Proof.
  exact (copyModel_name_taken 0 4 (with_type_A stub) (VStr "A") 0
           (MkDataSource (VStr "keys") VUndef true false (Some stub) 0 1
              false None true false)
           (VObj 5)
           (MkDataSource (VStr "keys") VUndef true false (Some stub) 0 1
              false None true false)
           [("A", data (VObj 4))] (data (VObj 4))
           eq_refl eq_refl eq_refl eq_refl eq_refl eq_refl eq_refl).
Defined.




(** ** [define] and the adapter *)

(** X19: [define] on a DataSource whose adapter has [define] announces
    the new type to it exactly once, after the type is registered, with
    one descriptor [{model, properties, settings}]: [model] is the type
    that [define] returns, [properties] and [settings] are the caller's
    own values when they are given, and new objects, distinct from each
    other, when they are missing.  Whatever the adapter answers, no
    completion is queued and no DataSource record changes. *)
Theorem define_announces dao this cn P St w d a r :
  sources w !! this = Some d → cn ≠ EmptyString →
  adapter d = Some a → supports a Define = Some r →
  ∃ T lo P' St' w',
    define dao this cn P St w = Ok T w'
    ∧ sources w' = sources w ∧ pending w' = pending w
    ∧ trace w' = trace w ++ [AdapterCall this Define [VObj lo] None]
    ∧ own_value (objects w') lo "model" = Some T
    ∧ own_value (objects w') lo "properties" = Some P'
    ∧ own_value (objects w') lo "settings" = Some St'
    ∧ (truthy P = true → P' = P)
    ∧ (truthy St = true → St' = St)
    ∧ (truthy P = false → ∃ l, P' = VObj l ∧ length (objects w) ≤ l)
    ∧ (truthy St = false → ∃ l, St' = VObj l ∧ length (objects w) ≤ l)
    ∧ (truthy P = false → truthy St = false → P' ≠ St').
Proof.
  intros Hd Hcn Ha Hs.
  pose proof (define_eq dao this cn P St w d Hd Hcn) as Heq.
  cbn zeta in Heq. rewrite Ha, Hs in Heq.
  eexists _, _, (defaulted P (objects w)).1,
    (defaulted St (defaulted P (objects w)).2).1, _.
  split; [exact Heq|]. sim.
  split; [done|]. split; [done|]. split; [done|].
  assert (Hown : ∀ (h : heap) ps k p,
    own k ps = Some p →
    own_value (h ++ [Obj None ps]) (length h) k = Some (p_value p)).
  { intros h ps k p Hk. apply own_value_Some. exists (Obj None ps), p.
    split; [apply lookup_fresh|done]. }
  split; [by apply (Hown _ _ "model" (data _))|].
  split; [by apply (Hown _ _ "properties" (data _))|].
  split; [by apply (Hown _ _ "settings" (data _))|].
  unfold defaulted.
  split; [intros E; by rewrite E|].
  split; [intros E; by rewrite E|].
  split; [intros E; rewrite E; by eexists|].
  split.
  - intros E. rewrite E. eexists. split; [done|].
    destruct (truthy P); cbn [fst snd]; rewrite ?length_app; cbn; lia.
  - intros EP ESt. rewrite ESt, EP. cbn [fst snd].
    rewrite length_app. cbn. intros [= E]. lia.
Qed.

Lemma define_announces_witness :
  ∃ T lo P' St' w',
    define [] 0 "A" VUndef VUndef stub_world = Ok T w'
    ∧ sources w' = sources stub_world ∧ pending w' = pending stub_world
    ∧ trace w' = trace stub_world ++ [AdapterCall 0 Define [VObj lo] None]
    ∧ own_value (objects w') lo "model" = Some T
    ∧ own_value (objects w') lo "properties" = Some P'
    ∧ own_value (objects w') lo "settings" = Some St'
    ∧ (truthy VUndef = true → P' = VUndef)
    ∧ (truthy VUndef = true → St' = VUndef)
    ∧ (truthy VUndef = false → ∃ l, P' = VObj l ∧ length (objects stub_world) ≤ l)
    ∧ (truthy VUndef = false → ∃ l, St' = VObj l ∧ length (objects stub_world) ≤ l)
    ∧ (truthy VUndef = false → truthy VUndef = false → P' ≠ St').
Proof.
  exact (define_announces [] 0 "A" VUndef VUndef stub_world
           (MkDataSource (VStr "stub") VUndef true false (Some stub) 0 1
              false None true false)
           stub Silent eq_refl ltac:(discriminate) eq_refl eq_refl).
Defined.

(** ** The two property helpers *)

Lemma defineProperty_again l o k cur desc w :
  objects w !! l = Some o → own k (o_props o) = Some cur →
  Object_defineProperty (VObj l) k desc w
  = if redefinable cur desc
    then Ok tt (MkWorld (<[l := Obj (o_proto o) (store k desc (o_props o))]>
                           (objects w))
                  (sources w) (pending w) (trace w))
    else Throw (TypeError (String.append "Cannot redefine property: " k)) w.
Proof.
  intros Hl Hk. unfold Object_defineProperty, get_heap.
  rewrite bind_eq, Hl, Hk. by destruct (redefinable cur desc).
Qed.

(** What holds of a property right after it is defined with the
    attributes of [desc] on an object that did not have it. *)
Lemma defined_property l o k desc (h : heap) :
  h !! l = Some o → own k (o_props o) = None → p_writable desc = false →
  let h' := <[l := Obj (o_proto o) (o_props o ++ [(k, desc)])]> h in
  read h' l k = p_value desc
  ∧ (∀ x, assign h' l k x = h')
  ∧ (k ∈ object_keys h' l ↔ p_enumerable desc = true).
Proof.
  intros Hl Hk Hw h'.
  assert (Hl' : h' !! l = Some (Obj (o_proto o) (o_props o ++ [(k, desc)]))).
  { apply list_lookup_insert_eq. by eapply lookup_lt_Some. }
  assert (Hk' : own k (o_props o ++ [(k, desc)]) = Some desc).
  { rewrite (own_app_absent _ _ _ _ Hk). by rewrite String.eqb_refl. }
  split; [|split].
  - apply read_own, own_value_Some. by eexists _, _.
  - intros x. unfold assign.
    by rewrite Hl', (lookup_chain_own _ _ _ _ _ Hl' Hk'), Hw.
  - unfold object_keys. rewrite Hl'. cbn [o_props].
    rewrite filter_app. rewrite keys_app, elem_of_app. split.
    + intros [Hin|Hin].
      * exfalso. apply own_absent_keys in Hk. apply Hk.
        unfold keys in *. apply list_elem_of_fmap in Hin as (kp & -> & Hin).
        apply list_elem_of_filter in Hin as [_ Hin].
        apply list_elem_of_fmap. by exists kp.
      * unfold keys in Hin. apply list_elem_of_fmap in Hin as (kp & _ & Hin).
        apply list_elem_of_filter in Hin as [He Hin].
        apply list_elem_of_singleton in Hin as ->.
        by apply Is_true_true in He.
    + intros He. right. unfold keys. apply list_elem_of_fmap.
      exists (k, desc). split; [done|].
      apply list_elem_of_filter. split; [by apply Is_true_true|].
      by apply list_elem_of_singleton.
Qed.

(** X20: on an object that does not have the property yet,
    [defineReadonlyProp] and [hiddenProperty] both create a property that
    reads as the given value and that an assignment does not change.  The
    read-only one is listed by [Object.keys] and can be defined anew with
    another value; the hidden one is not listed, and to define it anew with
    another value throws a TypeError and changes nothing. *)
Theorem readonly_and_hidden_properties l o k v v' w :
  objects w !! l = Some o → own k (o_props o) = None → v' ≠ v →
  let ro := final (defineReadonlyProp (VObj l) k v w) in
  let hid := final (hiddenProperty (VObj l) k v w) in
  (read (objects ro) l k = v
   ∧ (∀ x, assign (objects ro) l k x = objects ro)
   ∧ k ∈ object_keys (objects ro) l
   ∧ ∃ w2, defineReadonlyProp (VObj l) k v' ro = Ok tt w2
           ∧ read (objects w2) l k = v')
  ∧ (read (objects hid) l k = v
     ∧ (∀ x, assign (objects hid) l k x = objects hid)
     ∧ (k ∉ object_keys (objects hid) l)
     ∧ hiddenProperty (VObj l) k v' hid
       = Throw (TypeError (String.append "Cannot redefine property: " k)) hid).
Proof.
  intros Hl Hk Hne ro hid. subst ro hid.
  unfold defineReadonlyProp, hiddenProperty.
  rewrite !(defineProperty_new _ _ _ _ _ Hl Hk). cbn [final objects].
  assert (Hlt : l < length (objects w)) by (by eapply lookup_lt_Some).
  split.
  - destruct (defined_property l o k (Prop_ v false true true) (objects w)
                Hl Hk eq_refl) as (Hr & Ha & He).
    split; [done|]. split; [done|]. split; [by apply He|].
    erewrite defineProperty_again;
      [|sim; by apply list_lookup_insert_eq
       |cbn [o_props]; rewrite (own_app_absent _ _ _ _ Hk);
        by rewrite String.eqb_refl].
    cbn [redefinable p_configurable orb].
    eexists. split; [done|]. sim.
    apply read_own, own_value_Some. eexists _, _. split; [|split].
    + apply list_lookup_insert_eq. by rewrite length_insert.
    + cbn [o_props]. apply own_store_eq.
    + done.
  - destruct (defined_property l o k (Prop_ v false false false) (objects w)
                Hl Hk eq_refl) as (Hr & Ha & He).
    split; [done|]. split; [done|].
    split; [intros Hin; by apply He in Hin|].
    erewrite defineProperty_again;
      [|sim; by apply list_lookup_insert_eq
       |cbn [o_props]; rewrite (own_app_absent _ _ _ _ Hk);
        by rewrite String.eqb_refl].
    unfold redefinable. cbn [p_configurable p_writable p_enumerable p_value].
    by rewrite bool_decide_eq_false_2.
Qed.

Lemma readonly_and_hidden_properties_witness :
  let w := stub_world in
  let ro := final (defineReadonlyProp (VObj 0) "id" (VNum 1) w) in
  let hid := final (hiddenProperty (VObj 0) "id" (VNum 1) w) in
  (read (objects ro) 0 "id" = VNum 1
   ∧ (∀ x, assign (objects ro) 0 "id" x = objects ro)
   ∧ "id" ∈ object_keys (objects ro) 0
   ∧ ∃ w2, defineReadonlyProp (VObj 0) "id" (VNum 2) ro = Ok tt w2
           ∧ read (objects w2) 0 "id" = VNum 2)
  ∧ (read (objects hid) 0 "id" = VNum 1
     ∧ (∀ x, assign (objects hid) 0 "id" x = objects hid)
     ∧ ("id" ∉ object_keys (objects hid) 0)
     ∧ hiddenProperty (VObj 0) "id" (VNum 2) hid
       = Throw (TypeError (String.append "Cannot redefine property: " "id")) hid).
Proof.
  exact (readonly_and_hidden_properties 0 (Obj None []) "id" (VNum 1) (VNum 2)
           stub_world eq_refl eq_refl ltac:(discriminate)).
Defined.

(** ** [tableName] and the settings of a type *)

(** X21: [tableName] consults no adapter and works on a DataSource
    without one.  For a declared type whose settings are a plain object
    with an assignable [table], it writes the name it returns into
    [settings.table], so that the settings read it back afterwards; no
    other object of the heap changes, and neither do the DataSource
    records, the queue and the trace. *)
Theorem tableName_writes_settings w this d t ltd ls sp :
  sources w !! this = Some d →
  own_value (objects w) (definitions d) t = Some (VObj ltd) →
  own_value (objects w) ltd "settings" = Some (VObj ls) →
  objects w !! ls = Some (Obj None sp) →
  match own "table" sp with Some p => p_writable p | None => true end = true →
  let v := js_or (read (objects w) ls "table") (VStr t) in
  let h1 := assign (objects w) ls "table" v in
  tableName this t w = Ok v (MkWorld h1 (sources w) (pending w) (trace w))
  ∧ read h1 ls "table" = v
  ∧ frame [ls] (objects w) h1.
Proof.
  intros Hd Htd Hsv Hls Hw v h1. subst v h1. split; [|split].
  - unfold tableName.
    rewrite bind_eq, (settings_of_eq _ _ d _ ltd (VObj ls)) by done.
    rewrite bind_eq, (settings_of_eq _ _ d _ ltd (VObj ls)) by done.
    rewrite bind_eq, member_obj.
    by rewrite bind_eq, set_member_obj.
  - by apply (read_assign_plain _ _ sp).
  - apply frame_assign; [apply frame_refl|]. left. apply list_elem_of_here.
Qed.

Lemma tableName_writes_settings_witness :
  let w := adapterless_world in
  let v := js_or (read (objects w) 3 "table") (VStr "User") in
  let h1 := assign (objects w) 3 "table" v in
  tableName 0 "User" w = Ok v (MkWorld h1 (sources w) (pending w) (trace w))
  ∧ read h1 3 "table" = v
  ∧ frame [3] (objects w) h1.
Proof.
  exact (tableName_writes_settings adapterless_world 0
           (MkDataSource (VStr "nothing") VUndef false false None 0 1
              false None false false)
           "User" 6 3 [] eq_refl eq_refl eq_refl eq_refl eq_refl).
Defined.

(** ** [connect] has no guard *)

(** X6: [connect] looks at neither [connected] nor [connecting]: a
    second call made while the first is still under way asks the adapter
    again, and when both attempts succeed [connected] is raised twice and
    each caller's completion is called once, in the order of the calls. *)
Theorem connect_twice this cb1 cb2 a args d w :
  sources w !! this = Some d → has_connect d = true →
  adapter d = Some a → supports a Connect = Some (Later args) →
  truthy (arg 0 args) = false → pending w = [] →
  (connect this cb1;; connect this cb2;; tick;; tick) w
  = Ok tt (MkWorld (objects w)
             (<[this := with_connecting false (with_connected true d)]>
                (sources w))
             []
             (trace w
              ++ [AdapterCall this Connect [] (Some (ConnectDone this cb1));
                  AdapterCall this Connect [] (Some (ConnectDone this cb2))]
              ++ Emitted this "connected" :: called cb1 [arg 0 args]
              ++ Emitted this "connected" :: called cb2 [arg 0 args])).
Proof.
  intros H Hc Ha Hs He Hp.
  assert (Hlt : this < length (sources w)) by (by eapply lookup_lt_Some).
  rewrite bind_eq, (connect_eq _ _ _ _ _ _ H Hc Ha Hs). cbn [answer].
  unfold defer. sim. rewrite Hp. cbn [app].
  rewrite bind_eq.
  erewrite (connect_eq _ _ a _ (with_connecting true d));
    [|sim; by apply list_lookup_insert_eq|done|done|done].
  cbn [answer]. unfold defer. sim. rewrite list_insert_insert_eq.
  rewrite bind_eq. unfold tick at 1. sim. cbn [app].
  erewrite connect_done_success;
    [|sim; by apply list_lookup_insert_eq|done].
  sim. rewrite list_insert_insert_eq.
  unfold tick. sim.
  erewrite connect_done_success;
    [|sim; by apply list_lookup_insert_eq|done].
  sim. rewrite list_insert_insert_eq.
  cbn [with_connecting with_connected name settings connected connecting
       adapter models definitions isTransaction origin has_connect has_exec].
  by rewrite <- !app_assoc.
Qed.

Lemma connect_twice_witness :
  let d := MkDataSource (VStr "reachable") VUndef true false (Some reachable)
             0 1 false None true false in
  let w := reachable_world in
  (connect 0 (Some 1);; connect 0 (Some 2);; tick;; tick) w
  = Ok tt (MkWorld (objects w)
             (<[0 := with_connecting false (with_connected true d)]>
                (sources w))
             []
             (trace w
              ++ [AdapterCall 0 Connect [] (Some (ConnectDone 0 (Some 1)));
                  AdapterCall 0 Connect [] (Some (ConnectDone 0 (Some 2)))]
              ++ Emitted 0 "connected" :: called (Some 1) [arg 0 []]
              ++ Emitted 0 "connected" :: called (Some 2) [arg 0 []])).
Proof.
  exact (connect_twice 0 (Some 1) (Some 2) reachable []
           (MkDataSource (VStr "reachable") VUndef true false (Some reachable)
              0 1 false None true false)
           reachable_world eq_refl eq_refl eq_refl eq_refl eq_refl eq_refl).
Defined.
